(** * Graph-colouring IPC: supervisor (Owner) and generator (Producer)

    A shallow embedding of [02-Shared-Memory-Synchronisation]:
    [common.h], [generator.c] and [supervisor.c].

    - C [int] and [long] values are [Z]; conversions that can wrap are
      written out ([to_int]).
    - C arrays are lists accessed through [arr_get] / [arr_set], which
      return [None] where the C access would be out of bounds.
    - The C library ([strtol], [sscanf], [getopt], [rand]) and the
      operating system (semaphores, shared memory) are modelled by their
      documented behaviour.
    - The processes are small-step transition systems over the shared
      region and the three semaphores; one transition per shared-memory
      access or system call of the source. *)

From Stdlib Require Import ZArith List String Ascii Lia Bool.
From stdpp Require Import base numbers list.
Import ListNotations.
Open Scope Z_scope.

(* ================================================================== *)
(** * C basics *)

Module C.

Definition INT_MAX : Z := 2147483647.
Definition INT_MIN : Z := -2147483648.
Definition LONG_MAX : Z := 9223372036854775807.
Definition LONG_MIN : Z := -9223372036854775808.
Definition EXIT_SUCCESS : Z := 0.
Definition EXIT_FAILURE : Z := 1.
Definition EINTR : Z := 4.
Definition EINVAL : Z := 22.
Definition ERANGE : Z := 34.
Definition EOF : Z := -1.

(** [(int) x] for a [long] x: reduction modulo 2^32 into the [int] range. *)
Definition to_int (x : Z) : Z := (x + 2147483648) mod 4294967296 - 2147483648.

(** [a[i]] as an rvalue; [None] when [i] is outside the array. *)
Definition arr_get {A} (a : list A) (i : Z) : option A :=
  if 0 <=? i then a !! Z.to_nat i else None.

(** [a[i] = x]; [None] when [i] is outside the array. *)
Definition arr_set {A} (a : list A) (i : Z) (x : A) : option (list A) :=
  if (0 <=? i) && (i <? Z.of_nat (length a))
  then Some (<[Z.to_nat i := x]> a) else None.

End C.

(* ================================================================== *)
(** * The C library functions the two programs call *)

Module Libc.
Import C.

Definition isspace (c : ascii) : bool :=
  let n := nat_of_ascii c in
  (n =? 32)%nat || ((9 <=? n)%nat && (n <=? 13)%nat).

Definition isdigit (c : ascii) : bool :=
  let n := nat_of_ascii c in (48 <=? n)%nat && (n <=? 57)%nat.

Definition digit_value (c : ascii) : Z := Z.of_nat (nat_of_ascii c) - 48.

Fixpoint skip_spaces (s : string) : string :=
  match s with
  | String c r => if isspace c then skip_spaces r else s
  | EmptyString => s
  end.

(** Longest prefix of decimal digits, accumulated on [acc]; the
    unread rest is returned with it. *)
Fixpoint scan_digits (s : string) (acc : Z) : Z * string :=
  match s with
  | String c r =>
      if isdigit c then scan_digits r (10 * acc + digit_value c) else (acc, s)
  | EmptyString => (acc, s)
  end.

Definition starts_with_digit (s : string) : bool :=
  match s with String c _ => isdigit c | EmptyString => false end.

(** Optional sign in front of the digits. *)
Definition take_sign (s : string) : bool * string :=
  match s with
  | String c r =>
      if Ascii.eqb c "-" then (true, r)
      else if Ascii.eqb c "+" then (false, r)
      else (false, s)
  | EmptyString => (false, s)
  end.

(** The subject sequence of a decimal conversion: white space, sign,
    digits.  [None] when there is no digit (no conversion). *)
Definition scan_decimal (s : string) : option (Z * string) :=
  let (neg, d) := take_sign (skip_spaces s) in
  if starts_with_digit d then
    let (m, rest) := scan_digits d 0 in
    Some (if neg then - m else m, rest)
  else None.

Record strtol_result := {
  st_value : Z;       (* the returned long *)
  st_endptr : string; (* what [*endptr] points at *)
  st_errno : Z        (* errno after the call, 0 before it *)
}.

(** [strtol(nptr, &endptr, 10)] called with [errno == 0].
    Out-of-range values are clamped and set ERANGE.  When no conversion
    is performed 0 is returned and [endptr] is [nptr]; ISO C leaves
    errno alone there and POSIX allows EINVAL: [einval_noconv] selects
    the C library (false: glibc, true: musl and the BSDs). *)
Definition strtol (einval_noconv : bool) (nptr : string) : strtol_result :=
  match scan_decimal nptr with
  | Some (x, rest) =>
      if LONG_MAX <? x then
        {| st_value := LONG_MAX; st_endptr := rest; st_errno := ERANGE |}
      else if x <? LONG_MIN then
        {| st_value := LONG_MIN; st_endptr := rest; st_errno := ERANGE |}
      else {| st_value := x; st_endptr := rest; st_errno := 0 |}
  | None =>
      {| st_value := 0; st_endptr := nptr;
         st_errno := if einval_noconv then EINVAL else 0 |}
  end.

(** A value outside [long] is clamped as by [strtol]; what [%d] stores
    is its conversion to [int]. *)
Definition clamp_long (x : Z) : Z :=
  if LONG_MAX <? x then LONG_MAX else if x <? LONG_MIN then LONG_MIN else x.

(** [sscanf(arg, "%d-%d", &a, &b)] with [a0], [b0] the previous contents
    of the two variables: the value returned and the contents of the
    variables afterwards.  The value is the number of conversions done,
    or EOF when the input ends before the first conversion starts (an
    empty or all-blank argument).  Characters after the second number
    are not looked at. *)
Definition sscanf_d_dash_d (arg : string) (a0 b0 : Z) : Z * Z * Z :=
  match scan_decimal arg with
  | None =>
      match skip_spaces arg with
      | EmptyString => (EOF, a0, b0)
      | String _ _ => (0, a0, b0)
      end
  | Some (a, rest) =>
      let a' := to_int (clamp_long a) in
      match rest with
      | String c rest' =>
          if Ascii.eqb c "-" then
            match scan_decimal rest' with
            | Some (b, _) => (2, a', to_int (clamp_long b))
            | None => (1, a', b0)
            end
          else (1, a', b0)
      | EmptyString => (1, a', b0)
      end
  end.

End Libc.

(* ================================================================== *)
(** * common.h *)

Module Common.

Definition BUFFER_SIZE : Z := 20.
Definition MAX_REMOVED_EDGES : Z := 8.

Record edge_t := { u : Z; v : Z }.

Record solution_t := {
  edge_count : Z;
  edges : list edge_t    (* edge_t edges[MAX_REMOVED_EDGES] *)
}.

Record shm_t := {
  terminate : Z;
  write_index : Z;
  read_index : Z;
  buffer : list solution_t   (* solution_t buffer[BUFFER_SIZE] *)
}.

(** The three named semaphores. *)
Inductive sem_name := SEM_FREE | SEM_USED | SEM_MUTEX.

End Common.

(* ================================================================== *)
(** * Observable actions of a process *)

Module Sys.
Import Common.

(** One constructor per system call or shared-memory access of the two
    programs; a run of a process is the list of these it performed. *)
Inductive event :=
| E_shm_open
| E_ftruncate
| E_mmap
| E_sem_open (s : sem_name)
| E_sem_wait (s : sem_name)                    (* returned 0 *)
| E_sem_wait_failed (s : sem_name) (errno : Z) (* returned -1 *)
| E_sem_post (s : sem_name)
| E_sem_close (s : sem_name)
| E_sem_unlink (s : sem_name)
| E_munmap
| E_close
| E_shm_unlink
| E_load_terminate (x : Z)
| E_store_terminate (x : Z)
| E_load_write_index (i : Z)
| E_store_slot (i : Z) (sol : solution_t)
| E_store_write_index (i : Z)
| E_load_read_index (i : Z)
| E_load_slot (i : Z) (sol : solution_t)
| E_store_read_index (i : Z)
| E_discard                       (* generator: candidate thrown away *)
| E_new_best (n : Z)              (* supervisor: "New best solution found!" *)
| E_solved                        (* supervisor: "Graph is 3-colorable!" *)
| E_exit (status : Z).

Definition is_sem_op (e : event) : bool :=
  match e with
  | E_sem_wait _ | E_sem_wait_failed _ _ | E_sem_post _ | E_sem_close _
  | E_sem_unlink _ => true
  | _ => false
  end.

Definition is_unlink (e : event) : bool :=
  match e with E_sem_unlink _ | E_shm_unlink => true | _ => false end.

Definition is_post (e : event) : bool :=
  match e with E_sem_post _ => true | _ => false end.

Definition is_slot_store (e : event) : bool :=
  match e with E_store_slot _ _ | E_store_write_index _ => true | _ => false end.


Definition sem_name_eqb (a b : sem_name) : bool :=
  match a, b with
  | SEM_FREE, SEM_FREE | SEM_USED, SEM_USED | SEM_MUTEX, SEM_MUTEX => true
  | _, _ => false
  end.

End Sys.

(* ================================================================== *)
(** * supervisor.c: argument parsing, start-up and [cleanup] *)

Module Supervisor.
Import C Libc Common Sys.

(** What one call of [getopt(argc, argv, "n:w:")] returned. *)
Inductive getopt_ret :=
| Opt_n (optarg : string)
| Opt_w (optarg : string)
| Opt_other.               (* '?': unknown option or missing argument *)

(** The [while ((opt = getopt(...)) != -1)] loop of [main]:
    [inl status] is [return status], [inr (limit, delay)] falls through. *)
Fixpoint parse_args (einval_noconv : bool) (opts : list getopt_ret)
    (limit delay : Z) : Z + Z * Z :=
  match opts with
  | [] => inr (limit, delay)
  | Opt_n optarg :: rest =>
      let r := strtol einval_noconv optarg in
      let val_n := st_value r in
      if negb (st_errno r =? 0) || negb (String.eqb (st_endptr r) "")
         || (val_n <=? 0)
      then inl EXIT_FAILURE
      else parse_args einval_noconv rest (to_int val_n) delay
  | Opt_w optarg :: rest =>
      let r := strtol einval_noconv optarg in
      let val_w := st_value r in
      if negb (st_errno r =? 0) || negb (String.eqb (st_endptr r) "")
         || (val_w <? 0)
      then inl EXIT_FAILURE
      else parse_args einval_noconv rest limit (to_int val_w)
  | Opt_other :: _ => inl EXIT_FAILURE
  end.

(** Values of the [shm_t *] global. *)
Inductive pointer := NULL | MAP_FAILED | Region.

(** Values of a [sem_t *] global; [SEM_FAILED] is the null pointer. *)
Inductive sem_ptr := SEM_FAILED | Sem (s : sem_name).

(** The supervisor process: its five globals, what the operating system
    holds for it, and the calls it has issued so far. *)
Record proc := {
  shm_ptr : pointer;
  sem_free : sem_ptr;
  sem_used : sem_ptr;
  sem_mutex : sem_ptr;
  shm_fd : Z;
  mapped : bool;                  (* the region is mapped at [Region] *)
  live : sem_name -> bool;        (* the handle has not been closed *)
  calls : list event
}.

Definition proc0 : proc :=
  {| shm_ptr := NULL; sem_free := SEM_FAILED; sem_used := SEM_FAILED;
     sem_mutex := SEM_FAILED; shm_fd := -1; mapped := false;
     live := fun _ => false; calls := [] |}.

(** A procedure either returns, or performs an access whose behaviour
    is undefined (a store through an unmapped pointer, a call on a
    closed semaphore handle). *)
Inductive outcome := Returns (p : proc) | Undefined (p : proc).

Definition bind (o : outcome) (k : proc -> outcome) : outcome :=
  match o with Returns p => k p | Undefined p => Undefined p end.

Definition issue (e : event) (p : proc) : proc :=
  {| shm_ptr := shm_ptr p; sem_free := sem_free p; sem_used := sem_used p;
     sem_mutex := sem_mutex p; shm_fd := shm_fd p; mapped := mapped p;
     live := live p; calls := calls p ++ [e] |}.

Definition set_mapped (b : bool) (p : proc) : proc :=
  {| shm_ptr := shm_ptr p; sem_free := sem_free p; sem_used := sem_used p;
     sem_mutex := sem_mutex p; shm_fd := shm_fd p; mapped := b;
     live := live p; calls := calls p |}.

Definition set_live (s : sem_name) (b : bool) (p : proc) : proc :=
  {| shm_ptr := shm_ptr p; sem_free := sem_free p; sem_used := sem_used p;
     sem_mutex := sem_mutex p; shm_fd := shm_fd p; mapped := mapped p;
     live := fun s' => if sem_name_eqb s s' then b else live p s';
     calls := calls p |}.

(** [shm_ptr->terminate = x] *)
Definition store_terminate (x : Z) (p : proc) : outcome :=
  match shm_ptr p with
  | Region => if mapped p then Returns (issue (E_store_terminate x) p)
              else Undefined p
  | _ => Undefined p
  end.

Definition sem_post (h : sem_ptr) (p : proc) : outcome :=
  match h with
  | Sem s => if live p s then Returns (issue (E_sem_post s) p) else Undefined p
  | SEM_FAILED => Undefined p
  end.

Definition sem_close (h : sem_ptr) (p : proc) : outcome :=
  match h with
  | Sem s => if live p s then Returns (set_live s false (issue (E_sem_close s) p))
             else Undefined p
  | SEM_FAILED => Undefined p
  end.

Definition sem_unlink (s : sem_name) (p : proc) : outcome :=
  Returns (issue (E_sem_unlink s) p).

Definition munmap (p : proc) : outcome :=
  Returns (set_mapped false (issue E_munmap p)).

Definition close (p : proc) : outcome := Returns (issue E_close p).

Definition shm_unlink (p : proc) : outcome := Returns (issue E_shm_unlink p).

(** [for (int i = 0; i < BUFFER_SIZE; i++) sem_post(sem_free);] *)
Fixpoint post_loop (n : nat) (h : sem_ptr) (p : proc) : outcome :=
  match n with
  | O => Returns p
  | S n' => bind (sem_post h p) (post_loop n' h)
  end.

Definition is_null (q : pointer) : bool :=
  match q with NULL => true | _ => false end.

Definition sem_is_null (h : sem_ptr) : bool :=
  match h with SEM_FAILED => true | Sem _ => false end.

(** The five [if] blocks of [cleanup], in source order. *)

(** [if (shm_ptr != NULL) shm_ptr->terminate = 1;] *)
Definition signal_generators (p : proc) : outcome :=
  if negb (is_null (shm_ptr p)) then store_terminate 1 p else Returns p.

(** [if (sem_free) { for ... sem_post; sem_close; sem_unlink }] *)
Definition wake_generators (p : proc) : outcome :=
  if negb (sem_is_null (sem_free p)) then
    bind (post_loop (Z.to_nat BUFFER_SIZE) (sem_free p) p) (fun p =>
    bind (sem_close (sem_free p) p) (sem_unlink SEM_FREE))
  else Returns p.

Definition release_used (p : proc) : outcome :=
  if negb (sem_is_null (sem_used p)) then
    bind (sem_close (sem_used p) p) (sem_unlink SEM_USED)
  else Returns p.

Definition release_mutex (p : proc) : outcome :=
  if negb (sem_is_null (sem_mutex p)) then
    bind (sem_close (sem_mutex p) p) (sem_unlink SEM_MUTEX)
  else Returns p.

Definition unmap_region (p : proc) : outcome :=
  if negb (is_null (shm_ptr p)) then munmap p else Returns p.

Definition release_fd (p : proc) : outcome :=
  if negb (shm_fd p =? -1) then bind (close p) shm_unlink else Returns p.

(** [void cleanup(void)] *)
Definition cleanup (p : proc) : outcome :=
  bind (signal_generators p) (fun p =>
  bind (wake_generators p) (fun p =>
  bind (release_used p) (fun p =>
  bind (release_mutex p) (fun p =>
  bind (unmap_region p) release_fd)))).

(** The handle variables [cleanup] tests. *)
Definition globals (p : proc) : pointer * sem_ptr * sem_ptr * sem_ptr * Z :=
  (shm_ptr p, sem_free p, sem_used p, sem_mutex p, shm_fd p).


(** A procedure that reopens no semaphore handle. *)
Definition fades (f : proc -> outcome) : Prop :=
  forall p p' s, f p = Returns p' -> live p s = false -> live p' s = false.



(** No handle variable but the descriptor is set. *)
Definition descriptor_only (p : proc) : Prop :=
  shm_ptr p = NULL /\ sem_free p = SEM_FAILED /\ sem_used p = SEM_FAILED
  /\ sem_mutex p = SEM_FAILED.

(** [handle_signal]: [cleanup(); exit(EXIT_SUCCESS);] *)
Definition handle_signal (p : proc) : outcome :=
  bind (cleanup p) (fun p => Returns (issue (E_exit EXIT_SUCCESS) p)).

(** The calls one invocation of [cleanup] adds. *)
Definition cleanup_calls (p : proc) : list event :=
  match cleanup p with
  | Returns p' | Undefined p' => drop (length (calls p)) (calls p')
  end.

(** The process when start-up has succeeded (any descriptor but -1
    would do for [shm_fd]). *)
Definition ready : proc :=
  {| shm_ptr := Region; sem_free := Sem SEM_FREE; sem_used := Sem SEM_USED;
     sem_mutex := Sem SEM_MUTEX; shm_fd := 3; mapped := true;
     live := fun _ => true; calls := [] |}.

(** What the operating system answers during start-up. *)
Record os_replies := {
  r_shm_open : Z;                 (* the descriptor, or -1 *)
  r_ftruncate : Z;                (* 0 or -1 *)
  r_mmap : bool;                  (* false: MAP_FAILED *)
  r_sem_open : sem_name -> bool   (* false: SEM_FAILED *)
}.

Definition set_shm_fd (fd : Z) (p : proc) : proc :=
  {| shm_ptr := shm_ptr p; sem_free := sem_free p; sem_used := sem_used p;
     sem_mutex := sem_mutex p; shm_fd := fd; mapped := mapped p;
     live := live p; calls := calls p |}.

Definition set_shm_ptr (q : pointer) (p : proc) : proc :=
  {| shm_ptr := q; sem_free := sem_free p; sem_used := sem_used p;
     sem_mutex := sem_mutex p; shm_fd := shm_fd p; mapped := mapped p;
     live := live p; calls := calls p |}.

Definition set_sems (f us m : sem_ptr) (p : proc) : proc :=
  {| shm_ptr := shm_ptr p; sem_free := f; sem_used := us;
     sem_mutex := m; shm_fd := shm_fd p; mapped := mapped p;
     live := fun s => match s with
                      | SEM_FREE => negb (sem_is_null f)
                      | SEM_USED => negb (sem_is_null us)
                      | SEM_MUTEX => negb (sem_is_null m)
                      end;
     calls := calls p |}.

Definition sem_open (env : os_replies) (s : sem_name) : sem_ptr :=
  if r_sem_open env s then Sem s else SEM_FAILED.

(** Every call succeeds; 3 is the first free descriptor. *)
Definition ok_env : os_replies :=
  {| r_shm_open := 3; r_ftruncate := 0; r_mmap := true;
     r_sem_open := fun _ => true |}.

(** How [main] leaves its start-up part. *)
Inductive started :=
| Exited (status : Z) (p : proc)        (* [return status] *)
| Faulted (p : proc)                    (* undefined access in [cleanup] *)
| Serving (limit delay : Z) (p : proc). (* reaches the processing loop *)

Definition fail_after (o : outcome) : started :=
  match o with
  | Returns p => Exited EXIT_FAILURE p
  | Undefined p => Faulted p
  end.

(** [main] from the argument loop to the creation of the semaphores. *)
Definition main_startup (einval_noconv : bool) (opts : list getopt_ret)
    (env : os_replies) : started :=
  match parse_args einval_noconv opts INT_MAX 0 with
  | inl status => Exited status proc0
  | inr (limit, delay) =>
      let p := set_shm_fd (r_shm_open env) (issue E_shm_open proc0) in
      if shm_fd p =? -1 then Exited EXIT_FAILURE p else
      let p := issue E_ftruncate p in
      if r_ftruncate env =? -1 then fail_after (cleanup p) else
      let p := issue E_mmap p in
      let p := if r_mmap env then set_shm_ptr Region (set_mapped true p)
               else set_shm_ptr MAP_FAILED p in
      if match shm_ptr p with MAP_FAILED => true | _ => false end
      then fail_after (cleanup p) else
      let p := issue (E_store_read_index 0)
                 (issue (E_store_write_index 0)
                    (issue (E_store_terminate 0) p)) in
      let p := issue (E_sem_open SEM_MUTEX)
                 (issue (E_sem_open SEM_USED) (issue (E_sem_open SEM_FREE) p)) in
      let p := set_sems (sem_open env SEM_FREE) (sem_open env SEM_USED)
                 (sem_open env SEM_MUTEX) p in
      if sem_is_null (sem_free p) || sem_is_null (sem_used p)
         || sem_is_null (sem_mutex p)
      then fail_after (cleanup p)
      else Serving limit delay p
  end.

(** The process at the loop when there is no option and every call
    succeeds. *)
Definition serving_proc : proc :=
  match main_startup false [] ok_env with
  | Serving _ _ p => p
  | _ => proc0
  end.



(** Creation calls: a named resource exists once one of them succeeded. *)
Definition is_creation (e : event) : bool :=
  match e with E_shm_open | E_sem_open _ => true | _ => false end.

End Supervisor.

(* ================================================================== *)
(** * generator.c: argument parsing and one round of the heuristic *)

Module Generator.
Import C Libc Common Sys.

Definition MAX_EDGES : Z := 200.
Definition MAX_NODES : Z := 100.

(** The three globals [parse_graph] fills: [graph_edges] holds the first
    [num_edges] entries of the array. *)
Record graph := {
  graph_edges : list edge_t;
  num_edges : Z;
  max_node_id : Z
}.

(** The [for] loop of [parse_graph] over [argv[1..]]; [None] is
    [exit(EXIT_FAILURE)]. *)
Fixpoint parse_edges (args : list string) (acc : list edge_t) (max_id : Z)
    : option (list edge_t * Z) :=
  match args with
  | [] => Some (acc, max_id)
  | a :: rest =>
      let '(n, x, y) := sscanf_d_dash_d a 0 0 in
      if negb (n =? 2) then None
      else
        let m1 := if x >? max_id then x else max_id in
        let m2 := if y >? m1 then y else m1 in
        parse_edges rest (acc ++ [{| u := x; v := y |}]) m2
  end.

(** An argument on which [sscanf] converts both numbers, and the edge
    it then stores. *)
Definition u_dash_v (a : string) : bool :=
  let '(n, _, _) := sscanf_d_dash_d a 0 0 in n =? 2.

Definition scanned_edge (a : string) : edge_t :=
  let '(_, x, y) := sscanf_d_dash_d a 0 0 in {| u := x; v := y |}.

(** [parse_graph(argc, argv)] with [args] the arguments after the
    program name: [inl status] is [exit(status)]. *)
Definition parse_graph (args : list string) : Z + graph :=
  let n := Z.of_nat (length args) in
  if n >? MAX_EDGES then inl EXIT_FAILURE
  else match parse_edges args [] 0 with
       | None => inl EXIT_FAILURE
       | Some (es, m) =>
           inr {| graph_edges := es; num_edges := n; max_node_id := m |}
       end.

(** [for (i = 0; i <= max_node_id; i++) colors[i] = rand() % 3;]
    with [k] iterations left.  [rand j] is what the call of [rand()]
    in iteration [j] returns.  [None]: a store outside [colors]. *)
Fixpoint assign_colors (k : nat) (i : Z) (rand : Z -> Z) (colors : list Z)
    : option (list Z) :=
  match k with
  | O => Some colors
  | S k' =>
      match arr_set colors i (Z.rem (rand i) 3) with
      | Some colors' => assign_colors k' (i + 1) rand colors'
      | None => None
      end
  end.

(** The edge-verification loop.  [None]: a read outside [colors] (or a
    store outside [sol.edges]); [Some (solution_valid, sol)] otherwise. *)
Fixpoint verify_edges (es : list edge_t) (colors : list Z) (sol : solution_t)
    : option (bool * solution_t) :=
  match es with
  | [] => Some (true, sol)
  | e :: rest =>
      match arr_get colors (u e), arr_get colors (v e) with
      | Some cu, Some cv =>
          if cu =? cv then
            if edge_count sol <? MAX_REMOVED_EDGES then
              match arr_set (edges sol) (edge_count sol) e with
              | Some es' =>
                  verify_edges rest colors
                    {| edge_count := edge_count sol + 1; edges := es' |}
              | None => None
              end
            else Some (false, sol)
          else verify_edges rest colors sol
      | _, _ => None
      end
  end.

(** One round of the main loop up to [if (!solution_valid) continue;].
    [colors] is the array as the previous round left it and [junk] the
    indeterminate initial contents of [sol.edges].  The result is the
    new [colors] and the candidate, [None] when it is thrown away. *)
Definition candidate (g : graph) (rand : Z -> Z) (colors : list Z)
    (junk : list edge_t) : option (list Z * option solution_t) :=
  match assign_colors (Z.to_nat (max_node_id g + 1)) 0 rand colors with
  | None => None
  | Some colors' =>
      match verify_edges (graph_edges g) colors'
              {| edge_count := 0; edges := junk |} with
      | None => None
      | Some (true, sol) => Some (colors', Some sol)
      | Some (false, _) => Some (colors', None)
      end
  end.

End Generator.

(* ================================================================== *)
(** * The two main loops as transition systems over the shared state *)

Module Ring.
Import C Common Sys.

(** What all attached processes see: the mapped region and the values
    of the three semaphores. *)
Record shared := {
  shm : shm_t;
  free_slots : nat;    (* value of SEM_FREE *)
  used_slots : nat;    (* value of SEM_USED *)
  write_mutex : nat    (* value of SEM_MUTEX *)
}.

Definition set_terminate (x : Z) (m : shm_t) : shm_t :=
  {| terminate := x; write_index := write_index m;
     read_index := read_index m; buffer := buffer m |}.

Definition set_write_index (i : Z) (m : shm_t) : shm_t :=
  {| terminate := terminate m; write_index := i;
     read_index := read_index m; buffer := buffer m |}.

Definition set_read_index (i : Z) (m : shm_t) : shm_t :=
  {| terminate := terminate m; write_index := write_index m;
     read_index := i; buffer := buffer m |}.

Definition set_buffer (b : list solution_t) (m : shm_t) : shm_t :=
  {| terminate := terminate m; write_index := write_index m;
     read_index := read_index m; buffer := b |}.

Definition with_shm (m : shm_t) (sh : shared) : shared :=
  {| shm := m; free_slots := free_slots sh; used_slots := used_slots sh;
     write_mutex := write_mutex sh |}.

Definition with_free (n : nat) (sh : shared) : shared :=
  {| shm := shm sh; free_slots := n; used_slots := used_slots sh;
     write_mutex := write_mutex sh |}.

Definition with_used (n : nat) (sh : shared) : shared :=
  {| shm := shm sh; free_slots := free_slots sh; used_slots := n;
     write_mutex := write_mutex sh |}.

Definition with_mutex (n : nat) (sh : shared) : shared :=
  {| shm := shm sh; free_slots := free_slots sh; used_slots := used_slots sh;
     write_mutex := n |}.

(** ** generator.c, lines 82-136 *)

(** Where a generator is in [main] once it is attached. *)
Inductive ppc :=
| P_Loop                                   (* line 82: while (!terminate) *)
| P_WaitFree (sol : solution_t)            (* 112: sem_wait(sem_free) *)
| P_CheckTerminate (sol : solution_t)      (* 113: if (terminate) break *)
| P_WaitMutex (sol : solution_t)           (* 116: sem_wait(sem_mutex) *)
| P_LoadIndex (sol : solution_t)           (* 118: idx = write_index *)
| P_StoreSlot (sol : solution_t) (idx : Z) (* 119: buffer[idx] = sol *)
| P_StoreIndex (idx : Z)                   (* 120: write_index = ... *)
| P_PostMutex                              (* 122: sem_post(sem_mutex) *)
| P_PostUsed                               (* 126: sem_post(sem_used) *)
| P_Detach                                 (* 130-134 *)
| P_Exited (status : Z).                   (* 136 *)

Record producer := {
  pgraph : Generator.graph;
  colors : list Z;          (* int colors[MAX_NODES] *)
  pc : ppc;
  ptrace : list event       (* what it has done so far, oldest first *)
}.

Definition producer_at (p : producer) (colors' : list Z) (pc' : ppc)
    (evs : list event) : producer :=
  {| pgraph := pgraph p; colors := colors'; pc := pc';
     ptrace := ptrace p ++ evs |}.

(** The calls of lines 130-134. *)
Definition detach_calls : list event :=
  [E_munmap; E_sem_close SEM_FREE; E_sem_close SEM_USED;
   E_sem_close SEM_MUTEX; E_close].

(** One step of a generator.  [sem_wait] on a semaphore whose value is
    0 has no step: the process is blocked.  The source looks at the
    result of [sem_wait(sem_free)] only; for [sem_wait(sem_mutex)] the
    steps are those in which the call returns with the semaphore. *)
Inductive pstep : shared -> producer -> shared -> producer -> Prop :=
| P_loop_exit sh p x :
    pc p = P_Loop -> terminate (shm sh) = x -> x <> 0 ->
    pstep sh p sh (producer_at p (colors p) P_Detach [E_load_terminate x])
| P_loop_discard sh p rand junk colors' :
    pc p = P_Loop -> terminate (shm sh) = 0 ->
    (forall i, 0 <= i -> 0 <= rand i) ->
    length junk = Z.to_nat MAX_REMOVED_EDGES ->
    Generator.candidate (pgraph p) rand (colors p) junk = Some (colors', None) ->
    pstep sh p sh
      (producer_at p colors' P_Loop [E_load_terminate 0; E_discard])
| P_loop_candidate sh p rand junk colors' sol :
    pc p = P_Loop -> terminate (shm sh) = 0 ->
    (forall i, 0 <= i -> 0 <= rand i) ->
    length junk = Z.to_nat MAX_REMOVED_EDGES ->
    Generator.candidate (pgraph p) rand (colors p) junk
      = Some (colors', Some sol) ->
    pstep sh p sh
      (producer_at p colors' (P_WaitFree sol) [E_load_terminate 0])
| P_wait_free_ok sh p sol n :
    pc p = P_WaitFree sol -> free_slots sh = S n ->
    pstep sh p (with_free n sh)
      (producer_at p (colors p) (P_CheckTerminate sol)
         [E_sem_wait SEM_FREE])
| P_wait_free_failed sh p sol errno :
    pc p = P_WaitFree sol ->
    pstep sh p sh
      (producer_at p (colors p) P_Detach [E_sem_wait_failed SEM_FREE errno])
| P_check_set sh p sol x :
    pc p = P_CheckTerminate sol -> terminate (shm sh) = x -> x <> 0 ->
    pstep sh p sh (producer_at p (colors p) P_Detach [E_load_terminate x])
| P_check_clear sh p sol :
    pc p = P_CheckTerminate sol -> terminate (shm sh) = 0 ->
    pstep sh p sh
      (producer_at p (colors p) (P_WaitMutex sol) [E_load_terminate 0])
| P_wait_mutex sh p sol n :
    pc p = P_WaitMutex sol -> write_mutex sh = S n ->
    pstep sh p (with_mutex n sh)
      (producer_at p (colors p) (P_LoadIndex sol) [E_sem_wait SEM_MUTEX])
| P_load_index sh p sol :
    pc p = P_LoadIndex sol ->
    pstep sh p sh
      (producer_at p (colors p) (P_StoreSlot sol (write_index (shm sh)))
         [E_load_write_index (write_index (shm sh))])
| P_store_slot sh p sol idx buf' :
    pc p = P_StoreSlot sol idx ->
    arr_set (buffer (shm sh)) idx sol = Some buf' ->
    pstep sh p (with_shm (set_buffer buf' (shm sh)) sh)
      (producer_at p (colors p) (P_StoreIndex idx) [E_store_slot idx sol])
| P_store_index sh p idx :
    pc p = P_StoreIndex idx ->
    pstep sh p
      (with_shm (set_write_index (Z.rem (idx + 1) BUFFER_SIZE) (shm sh)) sh)
      (producer_at p (colors p) P_PostMutex
         [E_store_write_index (Z.rem (idx + 1) BUFFER_SIZE)])
| P_post_mutex sh p :
    pc p = P_PostMutex ->
    pstep sh p (with_mutex (S (write_mutex sh)) sh)
      (producer_at p (colors p) P_PostUsed [E_sem_post SEM_MUTEX])
| P_post_used sh p :
    pc p = P_PostUsed ->
    pstep sh p (with_used (S (used_slots sh)) sh)
      (producer_at p (colors p) P_Loop [E_sem_post SEM_USED])
| P_detach sh p :
    pc p = P_Detach ->
    pstep sh p sh
      (producer_at p (colors p) (P_Exited EXIT_SUCCESS)
         (detach_calls ++ [E_exit EXIT_SUCCESS])).

(** ** supervisor.c, lines 163-201 *)

Inductive opc :=
| O_Loop                                    (* 167: while (...) *)
| O_WaitUsed                                (* 170: sem_wait(sem_used) *)
| O_LoadIndex                               (* 176: idx = read_index *)
| O_LoadSlot (idx : Z)                      (* 177: sol = buffer[idx] *)
| O_StoreIndex (idx : Z) (sol : solution_t) (* 178: read_index = ... *)
| O_PostFree (sol : solution_t)             (* 181-182 *)
| O_Check (sol : solution_t)                (* 185-193 *)
| O_AfterLoop                               (* 196-200 *)
| O_Cleanup (todo : list event)             (* inside cleanup() *)
| O_Exited (status : Z).

Record owner := {
  limit : Z;
  solutions_read : Z;
  best_edge_count : Z;
  opc_of : opc;
  otrace : list event
}.

Definition owner_at (o : owner) (n best : Z) (pc' : opc) (evs : list event)
    : owner :=
  {| limit := limit o; solutions_read := n; best_edge_count := best;
     opc_of := pc'; otrace := otrace o ++ evs |}.

Definition goto (o : owner) (pc' : opc) (evs : list event) : owner :=
  owner_at o (solutions_read o) (best_edge_count o) pc' evs.

(** The calls of [cleanup] once start-up has succeeded. *)
Definition shutdown_calls : list event :=
  Supervisor.cleanup_calls Supervisor.ready.

(** Effect of a call of [cleanup] on what the other processes see.
    Closing and unlinking remove the supervisor's handle and the name;
    the objects stay while a generator has them open. *)
Definition apply_call (e : event) (sh : shared) : shared :=
  match e with
  | E_store_terminate x => with_shm (set_terminate x (shm sh)) sh
  | E_sem_post SEM_FREE => with_free (S (free_slots sh)) sh
  | E_sem_post SEM_USED => with_used (S (used_slots sh)) sh
  | E_sem_post SEM_MUTEX => with_mutex (S (write_mutex sh)) sh
  | _ => sh
  end.

(** The shared state after the given calls of [cleanup]. *)
Definition run_calls (todo : list event) (x : shared) : shared :=
  fold_left (fun y e => apply_call e y) todo x.

(** The program points at which the supervisor has not begun [cleanup]. *)
Definition serving (c : opc) : bool :=
  match c with O_Cleanup _ | O_Exited _ => false | _ => true end.

(** One step of the supervisor.  [O_signal] is the delivery of SIGINT
    or SIGTERM while serving: [handle_signal] runs [cleanup] and exits. *)
Inductive ostep : shared -> owner -> shared -> owner -> Prop :=
| O_loop_enter sh o :
    opc_of o = O_Loop -> terminate (shm sh) = 0 ->
    solutions_read o < limit o ->
    ostep sh o sh (goto o O_WaitUsed [E_load_terminate 0])
| O_loop_terminated sh o x :
    opc_of o = O_Loop -> terminate (shm sh) = x -> x <> 0 ->
    ostep sh o sh (goto o O_AfterLoop [E_load_terminate x])
| O_loop_limit sh o :
    opc_of o = O_Loop -> terminate (shm sh) = 0 ->
    limit o <= solutions_read o ->
    ostep sh o sh (goto o O_AfterLoop [E_load_terminate 0])
| O_wait_used sh o n :
    opc_of o = O_WaitUsed -> used_slots sh = S n ->
    ostep sh o (with_used n sh) (goto o O_LoadIndex [E_sem_wait SEM_USED])
| O_wait_interrupted sh o :
    opc_of o = O_WaitUsed ->
    ostep sh o sh (goto o O_AfterLoop [E_sem_wait_failed SEM_USED EINTR])
| O_wait_failed sh o errno :
    opc_of o = O_WaitUsed -> errno <> EINTR ->
    ostep sh o sh (goto o O_Loop [E_sem_wait_failed SEM_USED errno])
| O_load_index sh o :
    opc_of o = O_LoadIndex ->
    ostep sh o sh
      (goto o (O_LoadSlot (read_index (shm sh)))
         [E_load_read_index (read_index (shm sh))])
| O_load_slot sh o idx sol :
    opc_of o = O_LoadSlot idx ->
    arr_get (buffer (shm sh)) idx = Some sol ->
    ostep sh o sh (goto o (O_StoreIndex idx sol) [E_load_slot idx sol])
| O_store_index sh o idx sol :
    opc_of o = O_StoreIndex idx sol ->
    ostep sh o
      (with_shm (set_read_index (Z.rem (idx + 1) BUFFER_SIZE) (shm sh)) sh)
      (goto o (O_PostFree sol)
         [E_store_read_index (Z.rem (idx + 1) BUFFER_SIZE)])
| O_post_free sh o sol :
    opc_of o = O_PostFree sol ->
    ostep sh o (with_free (S (free_slots sh)) sh)
      (owner_at o (solutions_read o + 1) (best_edge_count o) (O_Check sol)
         [E_sem_post SEM_FREE])
| O_check_solved sh o sol :
    opc_of o = O_Check sol ->
    edge_count sol < best_edge_count o -> edge_count sol = 0 ->
    ostep sh o sh
      (owner_at o (solutions_read o) (edge_count sol) O_AfterLoop
         [E_new_best (edge_count sol); E_solved])
| O_check_better sh o sol :
    opc_of o = O_Check sol ->
    edge_count sol < best_edge_count o -> edge_count sol <> 0 ->
    ostep sh o sh
      (owner_at o (solutions_read o) (edge_count sol) O_Loop
         [E_new_best (edge_count sol)])
| O_check_keep sh o sol :
    opc_of o = O_Check sol ->
    best_edge_count o <= edge_count sol ->
    ostep sh o sh (goto o O_Loop [])
| O_after_loop sh o :
    opc_of o = O_AfterLoop ->
    ostep sh o sh (goto o (O_Cleanup shutdown_calls) [])
| O_signal sh o :
    serving (opc_of o) = true ->
    ostep sh o sh (goto o (O_Cleanup shutdown_calls) [])
| O_cleanup_call sh o e todo :
    opc_of o = O_Cleanup (e :: todo) ->
    ostep sh o (apply_call e sh) (goto o (O_Cleanup todo) [e])
| O_cleanup_done sh o :
    opc_of o = O_Cleanup [] ->
    ostep sh o sh (goto o (O_Exited EXIT_SUCCESS) [E_exit EXIT_SUCCESS]).

(** ** The processes together *)

Record system := {
  sh : shared;
  producers : list producer;
  sup : owner
}.

Definition zero_solution : solution_t :=
  {| edge_count := 0;
     edges := replicate (Z.to_nat MAX_REMOVED_EDGES) {| u := 0; v := 0 |} |}.

(** The shared state when the supervisor enters its loop: a fresh,
    zero-filled region and the semaphores at BUFFER_SIZE, 0 and 1. *)
Definition shared0 : shared :=
  {| shm := {| terminate := 0; write_index := 0; read_index := 0;
               buffer := replicate (Z.to_nat BUFFER_SIZE) zero_solution |};
     free_slots := Z.to_nat BUFFER_SIZE; used_slots := 0; write_mutex := 1 |}.

Definition owner0 (lim : Z) : owner :=
  {| limit := lim; solutions_read := 0;
     best_edge_count := MAX_REMOVED_EDGES + 1; opc_of := O_Loop;
     otrace := [] |}.

Definition init (lim : Z) : system :=
  {| sh := shared0; producers := []; sup := owner0 lim |}.

(** A generator that has just attached, with the graph it parsed and
    whatever its [colors] array holds. *)
Definition attached (g : Generator.graph) (cols : list Z) : producer :=
  {| pgraph := g; colors := cols; pc := P_Loop; ptrace := [] |}.

Inductive step : system -> system -> Prop :=
| step_producer s l1 p l2 sh' p' :
    producers s = l1 ++ p :: l2 ->
    pstep (sh s) p sh' p' ->
    step s {| sh := sh'; producers := l1 ++ p' :: l2; sup := sup s |}
| step_owner s sh' o' :
    ostep (sh s) (sup s) sh' o' ->
    step s {| sh := sh'; producers := producers s; sup := o' |}
| step_attach s g cols :
    serving (opc_of (sup s)) = true ->
    length cols = Z.to_nat Generator.MAX_NODES ->
    step s {| sh := sh s; producers := producers s ++ [attached g cols];
              sup := sup s |}.

(** Reflexive-transitive closure of [step], growing at the end. *)
Inductive steps : system -> system -> Prop :=
| steps_refl s : steps s s
| steps_next s1 s2 s3 : steps s1 s2 -> step s2 s3 -> steps s1 s3.

Definition reachable (s : system) : Prop := exists lim, steps (init lim) s.

End Ring.

(* ================================================================== *)
(** * What the specification calls a valid option value *)

Module Spec.
Import Libc.

Fixpoint all_digits (s : string) : bool :=
  match s with
  | String c r => isdigit c && all_digits r
  | EmptyString => true
  end.

Fixpoint decimal_value (s : string) (acc : Z) : Z :=
  match s with
  | String c r => decimal_value r (10 * acc + digit_value c)
  | EmptyString => acc
  end.

(** The text of an integer with no trailing characters: optional white
    space, an optional sign, then one or more digits up to the end. *)
Definition integer_text (s : string) : option Z :=
  let (neg, d) := take_sign (skip_spaces s) in
  match d with
  | EmptyString => None
  | _ => if all_digits d
         then Some (if neg then - decimal_value d 0 else decimal_value d 0)
         else None
  end.

(** "the limit must parse as an integer strictly greater than zero" *)
Definition valid_limit (s : string) : bool :=
  match integer_text s with Some n => 0 <? n | None => false end.

(** "the delay as an integer greater than or equal to zero" *)
Definition valid_delay (s : string) : bool :=
  match integer_text s with Some n => 0 <=? n | None => false end.

End Spec.

(* ================================================================== *)
(** * Notions used to state the properties of the protocol *)

Module Protocol.
Import C Common Sys Ring.

(** "0 <= edge_count <= MAX_REMOVED_EDGES" *)
Definition valid_solution (sol : solution_t) : Prop :=
  0 <= edge_count sol <= MAX_REMOVED_EDGES.

(** A generator between a successful [sem_wait(sem_free)] and the end
    of its [sem_post(sem_used)]. *)
Definition holds_slot (c : ppc) : nat :=
  match c with
  | P_CheckTerminate _ | P_WaitMutex _ | P_LoadIndex _ | P_StoreSlot _ _
  | P_StoreIndex _ | P_PostMutex | P_PostUsed => 1
  | _ => 0
  end.

(** A generator between [sem_wait(sem_mutex)] and the end of
    [sem_post(sem_mutex)]. *)
Definition in_critical (c : ppc) : nat :=
  match c with
  | P_LoadIndex _ | P_StoreSlot _ _ | P_StoreIndex _ | P_PostMutex => 1
  | _ => 0
  end.

(** The supervisor between [sem_wait(sem_used)] and the end of
    [sem_post(sem_free)]. *)
Definition owner_holds (c : opc) : nat :=
  match c with
  | O_LoadIndex | O_LoadSlot _ | O_StoreIndex _ _ | O_PostFree _ => 1
  | _ => 0
  end.

Definition slots_held (ps : list producer) : nat :=
  sum_list_with (fun p => holds_slot (pc p)) ps.

Definition in_critical_count (ps : list producer) : nat :=
  sum_list_with (fun p => in_critical (pc p)) ps.

(** No process is inside a critical section or between a semaphore wait
    and its matching post. *)
Definition quiescent (s : system) : Prop :=
  slots_held (producers s) = 0%nat
  /\ in_critical_count (producers s) = 0%nat
  /\ owner_holds (opc_of (sup s)) = 0%nat.

(** The candidate a generator is carrying to the buffer. *)
Definition pending (c : ppc) : option solution_t :=
  match c with
  | P_WaitFree s | P_CheckTerminate s | P_WaitMutex s | P_LoadIndex s
  | P_StoreSlot s _ => Some s
  | _ => None
  end.

(** The value of [idx] in a generator that has read it. *)
Definition loaded_index (c : ppc) : option Z :=
  match c with
  | P_StoreSlot _ i | P_StoreIndex i => Some i
  | _ => None
  end.

(** The record and index the supervisor holds in [sol] and [idx]. *)
Definition owner_record (c : opc) : option solution_t :=
  match c with
  | O_StoreIndex _ s | O_PostFree s | O_Check s => Some s
  | _ => None
  end.

Definition owner_index (c : opc) : option Z :=
  match c with
  | O_LoadSlot i | O_StoreIndex i _ => Some i
  | _ => None
  end.

(** The supervisor is inside its processing loop. *)
Definition in_loop (c : opc) : bool :=
  match c with
  | O_AfterLoop | O_Cleanup _ | O_Exited _ => false
  | _ => true
  end.

(** The records the supervisor has copied out of the buffer, in order. *)
Fixpoint records_read (t : list event) : list solution_t :=
  match t with
  | [] => []
  | E_load_slot _ sol :: t' => sol :: records_read t'
  | _ :: t' => records_read t'
  end.

(** The value of [best_edge_count] after comparing it with the given
    records in turn (lines 164 and 185-186). *)
Definition best_after (checked : list solution_t) : Z :=
  fold_left (fun best sol =>
               if edge_count sol <? best then edge_count sol else best)
    checked (MAX_REMOVED_EDGES + 1).

(** ** The trace of a generator *)

(** A round that publishes [sol] in slot [idx], from the loop test to
    the post on SEM_USED. *)
Definition publication (sol : solution_t) (idx : Z) : list event :=
  [E_load_terminate 0;
   E_sem_wait SEM_FREE;
   E_load_terminate 0;
   E_sem_wait SEM_MUTEX;
   E_load_write_index idx;
   E_store_slot idx sol;
   E_store_write_index ((idx + 1) mod BUFFER_SIZE);
   E_sem_post SEM_MUTEX;
   E_sem_post SEM_USED].

(** A round whose candidate is thrown away. *)
Definition discarded : list event := [E_load_terminate 0; E_discard].





(** ** Invariants of the reachable states *)

(** Cursors, mutual exclusion and the local copies of the cursors. *)
Record core (s : system) : Prop := {
  core_write : 0 <= write_index (shm (sh s)) < BUFFER_SIZE;
  core_read : 0 <= read_index (shm (sh s)) < BUFFER_SIZE;
  core_buffer : length (buffer (shm (sh s))) = Z.to_nat BUFFER_SIZE;
  core_mutex :
    (write_mutex (sh s) + in_critical_count (producers s) = 1)%nat;
  core_pidx :
    Forall (fun p => forall i, loaded_index (pc p) = Some i ->
                               i = write_index (shm (sh s))) (producers s);
  core_oidx :
    forall i, owner_index (opc_of (sup s)) = Some i ->
              i = read_index (shm (sh s));
  core_serving :
    serving (opc_of (sup s)) = true -> terminate (shm (sh s)) = 0;
  core_cleanup :
    forall todo, opc_of (sup s) = O_Cleanup todo ->
                 exists pre, shutdown_calls = pre ++ todo
}.

(** Every record in the buffer, in transit or read is valid, and
    [best_edge_count] is positive while the loop runs. *)
Record sound (s : system) : Prop := {
  sound_buffer : Forall valid_solution (buffer (shm (sh s)));
  sound_pending :
    Forall (fun p => forall sol, pending (pc p) = Some sol ->
                                 valid_solution sol) (producers s);
  sound_record :
    forall sol, owner_record (opc_of (sup s)) = Some sol ->
                valid_solution sol;
  sound_read : Forall valid_solution (records_read (otrace (sup s)));
  sound_best : 0 <= best_edge_count (sup s) <= MAX_REMOVED_EDGES + 1;
  sound_loop :
    in_loop (opc_of (sup s)) = true -> 0 < best_edge_count (sup s)
}.

(** [best_edge_count] is the result of comparing the records read so
    far; the record in [sol] is read and not yet compared, and a signal
    can leave it so. *)
Definition tracks_best (o : owner) : Prop :=
  exists checked,
    best_edge_count o = best_after checked
    /\ match owner_record (opc_of o) with
       | Some sol => records_read (otrace o) = checked ++ [sol]
       | None =>
           records_read (otrace o) = checked
           \/ (serving (opc_of o) = false
               /\ exists sol, records_read (otrace o) = checked ++ [sol])
       end.

(** An edge whose two ends have the same colour. *)
Definition conflict (cols : list Z) (e : edge_t) : bool :=
  match arr_get cols (u e), arr_get cols (v e) with
  | Some cu, Some cv => cu =? cv
  | _, _ => false
  end.

(** The number of conflicts of a colouring. *)
Definition conflicts (cols : list Z) (es : list edge_t) : Z :=
  Z.of_nat (length (List.filter (conflict cols) es)).

(** A generator blocked at line 112, and the same generator once it has
    been woken, has seen [terminate] set and has detached. *)
Definition waiting (p : producer) : Prop :=
  exists sol, pc p = P_WaitFree sol.

Definition woken (p p' : producer) : Prop :=
  pc p' = P_Exited EXIT_SUCCESS
  /\ ptrace p'
     = ptrace p ++ [E_sem_wait SEM_FREE; E_load_terminate 1]
         ++ detach_calls ++ [E_exit EXIT_SUCCESS].


(** ** A small system for examples *)

(** The triangle 0-1 1-2 2-0 as [parse_graph] leaves it. *)
Definition triangle : Generator.graph :=
  {| Generator.graph_edges :=
       [{| u := 0; v := 1 |}; {| u := 1; v := 2 |}; {| u := 2; v := 0 |}];
     Generator.num_edges := 3; Generator.max_node_id := 2 |}.

Definition blank_colors : list Z := replicate (Z.to_nat Generator.MAX_NODES) 0.

Definition blank_edges : list edge_t :=
  replicate (Z.to_nat MAX_REMOVED_EDGES) {| u := 0; v := 0 |}.

(** [rand()] returning 0, 1, 2, ...: a proper colouring of the triangle. *)
Definition counting_rand (i : Z) : Z := i.

(** The colouring 0, 1, 2 of the triangle: no conflict. *)
Definition proper_colors : list Z :=
  <[2%nat := 2]> (<[1%nat := 1]> blank_colors).

Definition proper : solution_t :=
  {| edge_count := 0; edges := blank_edges |}.

(** One generator has published [proper] in slot 0 and is back at the
    loop test; the supervisor (limit 5) has not moved yet. *)
Definition published : system :=
  {| sh := {| shm := {| terminate := 0; write_index := 1; read_index := 0;
                        buffer := <[0%nat := proper]> (buffer (shm shared0)) |};
              free_slots := 19; used_slots := 1; write_mutex := 1 |};
     producers := [{| pgraph := triangle; colors := proper_colors;
                      pc := P_Loop; ptrace := publication proper 0 |}];
     sup := owner0 5 |}.

(** The supervisor has read that record and is about to compare it. *)
Definition at_check : system :=
  {| sh := {| shm := {| terminate := 0; write_index := 1; read_index := 1;
                        buffer := buffer (shm (sh published)) |};
              free_slots := 20; used_slots := 0; write_mutex := 1 |};
     producers := producers published;
     sup := {| limit := 5; solutions_read := 1;
               best_edge_count := MAX_REMOVED_EDGES + 1;
               opc_of := O_Check proper;
               otrace := [E_load_terminate 0; E_sem_wait SEM_USED;
                          E_load_read_index 0; E_load_slot 0 proper;
                          E_store_read_index 1; E_sem_post SEM_FREE] |} |}.



(** The buffer is full and a generator is blocked on SEM_FREE. *)
Definition blocked_generator : producer :=
  {| pgraph := triangle; colors := proper_colors; pc := P_WaitFree proper;
     ptrace := [E_load_terminate 0] |}.

Definition blocked : system :=
  {| sh := {| shm := shm shared0; free_slots := 0; used_slots := 20;
              write_mutex := 1 |};
     producers := [blocked_generator];
     sup := goto (owner0 5) O_WaitUsed [E_load_terminate 0] |}.

(** No generator ever attached and the supervisor was told to stop:
    it has run [cleanup] and exited. *)
Definition shut_down : system :=
  {| sh := {| shm := set_terminate 1 (shm shared0); free_slots := 40;
              used_slots := 0; write_mutex := 1 |};
     producers := [];
     sup := {| limit := 5; solutions_read := 0;
               best_edge_count := MAX_REMOVED_EDGES + 1;
               opc_of := O_Exited EXIT_SUCCESS;
               otrace := shutdown_calls ++ [E_exit EXIT_SUCCESS] |} |}.

(** Nine loops at node 0: every colouring has nine conflicts. *)
Definition nine_loops : Generator.graph :=
  {| Generator.graph_edges := replicate 9 {| u := 0; v := 0 |};
     Generator.num_edges := 9; Generator.max_node_id := 0 |}.

Definition crowded : system :=
  {| sh := shared0; producers := [attached nine_loops blank_colors];
     sup := owner0 5 |}.

End Protocol.

(* ================================================================== *)
(** * generator.c: [main] up to the loop (lines 47-77) *)

Module Attach.
Import C Libc Common Sys Generator.

(** What the operating system answers to the generator. *)
Record os_replies := {
  r_shm_open : Z;                 (* the descriptor, or -1 *)
  r_mmap : bool;                  (* false: MAP_FAILED *)
  r_sem_open : sem_name -> bool   (* false: SEM_FAILED *)
}.

(** How [main] leaves its first part, with the calls issued so far. *)
Inductive attached :=
| Exited (status : Z) (calls : list event)   (* [return] or [exit] *)
| Looping (g : graph) (calls : list event).  (* reaches the main loop *)

(** [main(argc, argv)] with [args] the arguments after the program
    name, so that [argc] is [length args + 1]. *)
Definition main_startup (args : list string) (env : os_replies) : attached :=
  if Z.of_nat (length args) + 1 <? 2 then Exited EXIT_FAILURE []
  else
    match parse_graph args with
    | inl status => Exited status []
    | inr g =>
        if r_shm_open env =? -1 then Exited EXIT_FAILURE [E_shm_open]
        else if negb (r_mmap env) then Exited EXIT_FAILURE [E_shm_open; E_mmap]
        else
          let calls := [E_shm_open; E_mmap; E_sem_open SEM_FREE;
                        E_sem_open SEM_USED; E_sem_open SEM_MUTEX] in
          if negb (r_sem_open env SEM_FREE) || negb (r_sem_open env SEM_USED)
             || negb (r_sem_open env SEM_MUTEX)
          then Exited EXIT_FAILURE calls
          else Looping g calls
    end.

(** Calls that change or remove what the supervisor created. *)
Definition is_owner_call (e : event) : bool :=
  match e with
  | E_ftruncate | E_sem_unlink _ | E_shm_unlink | E_store_terminate _ => true
  | _ => false
  end.

End Attach.

(* ================================================================== *)
(** * Notions for further properties of the two loops *)

Module Accounting.
Import C Common Sys Ring Protocol.

(** A record is in [sol] and [solutions_read] does not count it yet. *)
Definition loaded_uncounted (c : opc) : Z :=
  match c with O_StoreIndex _ _ | O_PostFree _ => 1 | _ => 0 end.

(** The supervisor is inside the loop body, before the comparison. *)
Definition past_test (c : opc) : bool :=
  match c with
  | O_WaitUsed | O_LoadIndex | O_LoadSlot _ | O_StoreIndex _ _
  | O_PostFree _ => true
  | _ => false
  end.

(** [solutions_read] counts the records read and never passes [limit]. *)
Record counted (o : owner) : Prop := {
  counted_read :
    serving (opc_of o) = true ->
    Z.of_nat (length (records_read (otrace o)))
    = solutions_read o + loaded_uncounted (opc_of o);
  counted_nonneg : 0 <= solutions_read o;
  counted_body : past_test (opc_of o) = true -> solutions_read o < limit o;
  counted_limit : solutions_read o <= Z.max 0 (limit o);
  counted_total :
    Z.of_nat (length (records_read (otrace o))) <= Z.max 0 (limit o)
}.

(** How far [cleanup] has got. *)
Definition cleanup_progress (s : system) : Prop :=
  match opc_of (sup s) with
  | O_Cleanup todo =>
      exists t pre,
        otrace (sup s) = t ++ pre /\ shutdown_calls = pre ++ todo
        /\ (pre <> [] -> terminate (shm (sh s)) = 1)
  | O_Exited status =>
      status = EXIT_SUCCESS /\ terminate (shm (sh s)) = 1
      /\ exists t, otrace (sup s)
                   = t ++ shutdown_calls ++ [E_exit EXIT_SUCCESS]
  | _ => True
  end.

End Accounting.

(* ================================================================== *)
(** * The order of publication *)

Module Fifo.
Import C Common Sys Ring Protocol.

(** What a step publishes: when it moves the write cursor, the record
    in the slot the cursor leaves. *)
Definition published_by (s s' : system) : list solution_t :=
  if write_index (shm (sh s')) =? write_index (shm (sh s)) then []
  else match arr_get (buffer (shm (sh s))) (write_index (shm (sh s))) with
       | Some sol => [sol]
       | None => []
       end.

(** A run together with the records published along it, oldest first. *)
Inductive run : system -> list solution_t -> system -> Prop :=
| run_nil s : run s [] s
| run_next s1 w s2 s3 :
    run s1 w s2 -> step s2 s3 -> run s1 (w ++ published_by s2 s3) s3.

(** A generator that has moved the cursor and not yet posted SEM_USED. *)
Definition after_store (c : ppc) : nat :=
  match c with P_PostMutex | P_PostUsed => 1 | _ => 0 end.

(** The supervisor has taken a unit of SEM_USED and not yet moved the
    read cursor. *)
Definition before_read (c : opc) : nat :=
  match c with O_LoadIndex | O_LoadSlot _ | O_StoreIndex _ _ => 1 | _ => 0 end.

(** The number of records the read cursor has moved past. *)
Definition consumed (o : owner) : nat :=
  length (records_read (otrace o))
  - match opc_of o with O_StoreIndex _ _ => 1 | _ => 0 end.

(** The ring: the cursors count the records published and consumed
    modulo BUFFER_SIZE, what was read is a prefix of what was
    published, and the slots between the cursors hold the records
    published and not yet consumed. *)
Record ring (w : list solution_t) (s : system) : Prop := {
  ring_write :
    write_index (shm (sh s)) = Z.of_nat (length w) mod BUFFER_SIZE;
  ring_order :
    records_read (otrace (sup s))
    = take (length (records_read (otrace (sup s)))) w;
  ring_loaded :
    forall i sol, opc_of (sup s) = O_StoreIndex i sol ->
                  records_read (otrace (sup s)) <> [];
  ring_read :
    serving (opc_of (sup s)) = true ->
    read_index (shm (sh s)) = Z.of_nat (consumed (sup s)) mod BUFFER_SIZE;
  ring_level :
    serving (opc_of (sup s)) = true ->
    length w
    = (consumed (sup s) + used_slots (sh s)
       + sum_list_with (fun p => after_store (pc p)) (producers s)
       + before_read (opc_of (sup s)))%nat;
  ring_slots :
    serving (opc_of (sup s)) = true ->
    forall k, (consumed (sup s) <= k < length w)%nat ->
      buffer (shm (sh s)) !! Z.to_nat (Z.of_nat k mod BUFFER_SIZE) = w !! k
}.

End Fifo.

(* ================================================================== *)
(** * Option values of the supervisor *)

Import C Libc Common Sys.

Lemma scan_digits_all (d : string) : forall acc m,
  scan_digits d acc = (m, EmptyString) ->
  Spec.all_digits d = true /\ m = Spec.decimal_value d acc.
Proof.
  induction d as [|c r IH]; simpl; intros acc m H.
  - inversion H; auto.
  - destruct (isdigit c); [|discriminate].
    apply IH in H as [-> ->]. auto.
Qed.

Lemma all_digits_scan (d : string) : forall acc,
  Spec.all_digits d = true ->
  scan_digits d acc = (Spec.decimal_value d acc, EmptyString).
Proof.
  induction d as [|c r IH]; simpl; intros acc H; [reflexivity|].
  apply andb_true_iff in H as [-> H]. auto.
Qed.

Lemma scan_decimal_integer_text (s : string) (x : Z) :
  scan_decimal s = Some (x, EmptyString) -> Spec.integer_text s = Some x.
Proof.
  unfold scan_decimal, Spec.integer_text.
  destruct (take_sign (skip_spaces s)) as [neg d].
  destruct d as [|c r]; [discriminate|].
  destruct (starts_with_digit (String c r)) eqn:Hd; [|discriminate].
  destruct (scan_digits (String c r) 0) as [m rest] eqn:Hs.
  intros H; inversion H; subst.
  apply scan_digits_all in Hs as [-> ->]. reflexivity.
Qed.

Lemma integer_text_scan_decimal (s : string) (x : Z) :
  Spec.integer_text s = Some x -> scan_decimal s = Some (x, EmptyString).
Proof.
  unfold scan_decimal, Spec.integer_text.
  destruct (take_sign (skip_spaces s)) as [neg d].
  destruct d as [|c r]; [discriminate|].
  destruct (Spec.all_digits (String c r)) eqn:Hd; [|discriminate].
  intros H; inversion H; subst.
  rewrite (all_digits_scan _ 0 Hd).
  simpl in Hd. apply andb_true_iff in Hd as [Hc _]. simpl. rewrite Hc.
  reflexivity.
Qed.

(** When a conversion took place, [strtol] passes the three tests of
    [main] only on the text of an integer. *)
Lemma strtol_clean_is_integer (b : bool) (s : string) (x : Z) (rest : string) :
  scan_decimal s = Some (x, rest) ->
  st_errno (strtol b s) = 0 -> st_endptr (strtol b s) = EmptyString ->
  Spec.integer_text s = Some x /\ st_value (strtol b s) = x.
Proof.
  intros Hs. unfold strtol. rewrite Hs.
  destruct (LONG_MAX <? x); [simpl; discriminate|].
  destruct (x <? LONG_MIN); [simpl; discriminate|].
  simpl. intros _ ->. split; [|reflexivity].
  now apply scan_decimal_integer_text.
Qed.

(** The only text that is not an integer and still passes is the
    empty one, and only where the library leaves errno alone. *)
Lemma strtol_no_conversion (b : bool) (s : string) :
  scan_decimal s = None ->
  st_errno (strtol b s) = 0 -> st_endptr (strtol b s) = EmptyString ->
  b = false /\ s = EmptyString.
Proof.
  intros Hs. unfold strtol. rewrite Hs. simpl.
  destruct b; [discriminate|]. auto.
Qed.

(** [-n]: an accepted value is a valid limit, whatever the library. *)
Lemma invalid_limit_rejected (b : bool) (s : string) (rest : list Supervisor.getopt_ret)
    (limit delay : Z) :
  Spec.valid_limit s = false ->
  Supervisor.parse_args b (Supervisor.Opt_n s :: rest) limit delay
    = inl EXIT_FAILURE.
Proof.
  intros Hv. simpl.
  destruct (negb (st_errno (strtol b s) =? 0)) eqn:He; [reflexivity|].
  destruct (negb (String.eqb (st_endptr (strtol b s)) "")) eqn:Hp; [reflexivity|].
  simpl.
  apply negb_false_iff, Z.eqb_eq in He.
  apply negb_false_iff, String.eqb_eq in Hp.
  destruct (scan_decimal s) as [[x r]|] eqn:Hs.
  - destruct (strtol_clean_is_integer b s x r Hs He Hp) as [Hi ->].
    unfold Spec.valid_limit in Hv. rewrite Hi in Hv.
    apply Z.ltb_ge in Hv. apply Z.leb_le in Hv. now rewrite Hv.
  - unfold strtol. rewrite Hs. reflexivity.
Qed.

(** [-w]: an accepted value is a valid delay or the empty text. *)
Lemma invalid_delay_rejected (b : bool) (s : string) (rest : list Supervisor.getopt_ret)
    (limit delay : Z) :
  Spec.valid_delay s = false -> s <> EmptyString \/ b = true ->
  Supervisor.parse_args b (Supervisor.Opt_w s :: rest) limit delay
    = inl EXIT_FAILURE.
Proof.
  intros Hv Hne. simpl.
  destruct (negb (st_errno (strtol b s) =? 0)) eqn:He; [reflexivity|].
  destruct (negb (String.eqb (st_endptr (strtol b s)) "")) eqn:Hp; [reflexivity|].
  simpl.
  apply negb_false_iff, Z.eqb_eq in He.
  apply negb_false_iff, String.eqb_eq in Hp.
  destruct (scan_decimal s) as [[x r]|] eqn:Hs.
  - destruct (strtol_clean_is_integer b s x r Hs He Hp) as [Hi ->].
    unfold Spec.valid_delay in Hv. rewrite Hi in Hv.
    apply Z.leb_gt in Hv. apply Z.ltb_lt in Hv. now rewrite Hv.
  - destruct (strtol_no_conversion b s Hs He Hp) as [-> ->].
    destruct Hne; congruence.
Qed.

(** A rejected option value ends [main] before any call is issued. *)
Lemma startup_failure_creates_nothing (b : bool) (opts : list Supervisor.getopt_ret)
    (env : Supervisor.os_replies) (status : Z) :
  Supervisor.parse_args b opts INT_MAX 0 = inl status ->
  Supervisor.main_startup b opts env = Supervisor.Exited status Supervisor.proc0
  /\ Supervisor.calls Supervisor.proc0 = [].
Proof.
  intros H. unfold Supervisor.main_startup. rewrite H. auto.
Qed.

(** C8 (glibc): [supervisor -w ""] is not rejected: the empty text is no
    integer, yet the argument loop falls through with delay 0 and
    start-up goes on to create the shared memory and the semaphores. *)
Theorem empty_delay_accepted :
  Spec.valid_delay "" = false
  /\ Supervisor.parse_args false [Supervisor.Opt_w ""] INT_MAX 0
       = inr (INT_MAX, 0)
  /\ exists p,
       Supervisor.main_startup false [Supervisor.Opt_w ""] Supervisor.ok_env
         = Supervisor.Serving INT_MAX 0 p
       /\ List.filter Supervisor.is_creation (Supervisor.calls p)
            = [E_shm_open; E_sem_open SEM_FREE; E_sem_open SEM_USED;
               E_sem_open SEM_MUTEX].
Proof.
  split; [reflexivity|]. split; [reflexivity|].
  eexists. split; reflexivity.
Qed.

(* ================================================================== *)
(** * [cleanup] *)

Section Cleanup.
Import Supervisor.

Lemma bind_returns (o : outcome) (k : proc -> outcome) (p' : proc) :
  bind o k = Returns p' -> exists q, o = Returns q /\ k q = Returns p'.
Proof. destruct o; simpl; [eauto | discriminate]. Qed.














Lemma cleanup_descriptor_only (p : proc) :
  shm_ptr p = NULL -> sem_free p = SEM_FAILED -> sem_used p = SEM_FAILED ->
  sem_mutex p = SEM_FAILED -> cleanup p = release_fd p.
Proof.
  intros H1 H2 H3 H4.
  unfold cleanup, signal_generators. rewrite H1. simpl.
  unfold wake_generators. rewrite H2. simpl.
  unfold release_used. rewrite H3. simpl.
  unfold release_mutex. rewrite H4. simpl.
  unfold unmap_region. rewrite H1. reflexivity.
Qed.


End Cleanup.

Section CleanupTwice.
Import Supervisor.

Lemma fades_bind (f g : proc -> outcome) :
  fades f -> fades g -> fades (fun p => bind (f p) g).
Proof.
  intros Hf Hg p p' s H. apply bind_returns in H as (q & H1 & H2). eauto.
Qed.

Lemma fades_guard (c : proc -> bool) (f : proc -> outcome) :
  fades f -> fades (fun p => if c p then f p else Returns p).
Proof.
  intros Hf p p' s H. destruct (c p); [eauto | now inversion H].
Qed.

Lemma fades_store_terminate x : fades (store_terminate x).
Proof.
  intros p p' s. unfold store_terminate.
  destruct (shm_ptr p); try discriminate.
  destruct (mapped p); [|discriminate]. now inversion 1.
Qed.

Lemma fades_sem_post h : fades (sem_post h).
Proof.
  intros p p' s. destruct h as [|s0]; simpl; [discriminate|].
  destruct (live p s0); [|discriminate]. now inversion 1.
Qed.

Lemma fades_sem_close h : fades (sem_close h).
Proof.
  intros p p' s. destruct h as [|s0]; simpl; [discriminate|].
  destruct (live p s0); [|discriminate]. inversion 1; subst; simpl.
  intros ->. now destruct (sem_name_eqb s0 s).
Qed.

Lemma fades_post_loop n h : fades (post_loop n h).
Proof.
  induction n as [|n IH]; intros p p' s; simpl.
  - now inversion 1.
  - intros H. apply bind_returns in H as (q & H1 & H2).
    intros Hs. eapply IH; [exact H2|]. eapply fades_sem_post; eauto.
Qed.

Lemma fades_sem_unlink s0 : fades (sem_unlink s0).
Proof. intros p p' s. now inversion 1. Qed.


Lemma fades_wake_generators : fades wake_generators.
Proof.
  apply (fades_guard (fun p => negb (sem_is_null (sem_free p)))).
  intros p p' s H. apply bind_returns in H as (q & H1 & H).
  apply bind_returns in H as (q' & H2 & H3). intros Hs.
  eapply fades_sem_unlink; [exact H3|].
  eapply fades_sem_close; [exact H2|].
  eapply fades_post_loop; eauto.
Qed.











End CleanupTwice.




(** What [cleanup] issues once start-up has succeeded. *)
Lemma shutdown_calls_eq :
  Ring.shutdown_calls
  = [E_store_terminate 1]
    ++ replicate (Z.to_nat BUFFER_SIZE) (E_sem_post SEM_FREE)
    ++ [E_sem_close SEM_FREE; E_sem_unlink SEM_FREE;
        E_sem_close SEM_USED; E_sem_unlink SEM_USED;
        E_sem_close SEM_MUTEX; E_sem_unlink SEM_MUTEX;
        E_munmap; E_close; E_shm_unlink].
Proof. reflexivity. Qed.

(** The state in which [main] reaches its loop. *)
Lemma serving_state (b : bool) (opts : list Supervisor.getopt_ret)
    (env : Supervisor.os_replies) (limit delay : Z) (p : Supervisor.proc) :
  Supervisor.main_startup b opts env = Supervisor.Serving limit delay p ->
  exists p', Supervisor.cleanup p = Supervisor.Returns p'
    /\ Supervisor.calls p' = Supervisor.calls p ++ Ring.shutdown_calls.
Proof.
  unfold Supervisor.main_startup.
  destruct (Supervisor.parse_args b opts INT_MAX 0) as [st|[l d]];
    [discriminate|].
  simpl.
  destruct (Supervisor.r_shm_open env =? -1) eqn:Hfd; [discriminate|].
  destruct (Supervisor.r_ftruncate env =? -1);
    [unfold Supervisor.fail_after;
     destruct (Supervisor.cleanup _); discriminate|].
  destruct (Supervisor.r_mmap env); simpl;
    [|unfold Supervisor.fail_after;
      destruct (Supervisor.cleanup _); discriminate].
  unfold Supervisor.sem_open.
  destruct (Supervisor.r_sem_open env SEM_FREE),
    (Supervisor.r_sem_open env SEM_USED),
    (Supervisor.r_sem_open env SEM_MUTEX); simpl;
    try (unfold Supervisor.fail_after;
         destruct (Supervisor.cleanup _); discriminate).
  intros H; inversion H; subst; clear H.
  revert Hfd. generalize (Supervisor.r_shm_open env) as fd. intros fd Hfd.
  destruct fd as [|q|[q|q|]]; try discriminate Hfd;
    vm_compute; eexists; split; reflexivity.
Qed.

(* ================================================================== *)
(** * The generator's graph and its [colors] array *)

Section Graph.
Import Generator.

Lemma arr_set_some {A} (a a' : list A) (i : Z) (x : A) :
  arr_set a i x = Some a' ->
  0 <= i < Z.of_nat (length a) /\ a' = <[Z.to_nat i := x]> a
  /\ length a' = length a.
Proof.
  unfold arr_set. destruct (0 <=? i) eqn:H0; [|discriminate].
  destruct (i <? Z.of_nat (length a)) eqn:H1; [|discriminate].
  simpl. intros H; inversion H; subst.
  apply Z.leb_le in H0. apply Z.ltb_lt in H1.
  rewrite length_insert. auto.
Qed.

Lemma arr_set_in_bounds {A} (a : list A) (i : Z) (x : A) :
  0 <= i < Z.of_nat (length a) -> arr_set a i x = Some (<[Z.to_nat i := x]> a).
Proof.
  intros [H0 H1]. unfold arr_set.
  apply Z.leb_le in H0. apply Z.ltb_lt in H1. now rewrite H0, H1.
Qed.

Lemma arr_get_some {A} (a : list A) (i : Z) (x : A) :
  arr_get a i = Some x -> 0 <= i < Z.of_nat (length a).
Proof.
  unfold arr_get. destruct (0 <=? i) eqn:H0; [|discriminate].
  intros H. apply lookup_lt_Some in H. lia.
Qed.

Lemma arr_get_in_bounds {A} (a : list A) (i : Z) :
  0 <= i < Z.of_nat (length a) -> exists x, arr_get a i = Some x.
Proof.
  intros [H0 H1]. unfold arr_get. apply Z.leb_le in H0. rewrite H0.
  apply lookup_lt_is_Some. lia.
Qed.

Lemma parse_edges_spec (args : list string) : forall acc m es m',
  parse_edges args acc m = Some (es, m') ->
  es = acc ++ map scanned_edge args
  /\ forallb u_dash_v args = true
  /\ m <= m'
  /\ Forall (fun e => u e <= m' /\ v e <= m') (map scanned_edge args).
Proof.
  induction args as [|a rest IH]; simpl; intros acc m es m' H.
  - inversion H; subst. rewrite app_nil_r. repeat split; auto. lia.
  - unfold u_dash_v, scanned_edge.
    destruct (sscanf_d_dash_d a 0 0) as [[n x] y].
    destruct (n =? 2); simpl in *; [|discriminate].
    apply IH in H as (-> & Hf & Hm & Hall).
    rewrite <- app_assoc. repeat split; auto.
    + destruct (x >? m) eqn:Hx, (y >? _) eqn:Hy in Hm; lia.
    + constructor; [|assumption]. simpl.
      destruct (x >? m) eqn:Hx, (y >? _) eqn:Hy in Hm; lia.
Qed.

Lemma parse_edges_accepts (args : list string) : forall acc m,
  forallb u_dash_v args = true ->
  exists m', parse_edges args acc m = Some (acc ++ map scanned_edge args, m').
Proof.
  induction args as [|a rest IH]; simpl; intros acc m H.
  - exists m. now rewrite app_nil_r.
  - apply andb_true_iff in H as [Ha Hr].
    unfold u_dash_v, scanned_edge in *.
    destruct (sscanf_d_dash_d a 0 0) as [[n x] y]. rewrite Ha. simpl.
    destruct (IH (acc ++ [{| u := x; v := y |}])
                (if y >? (if x >? m then x else m) then y
                 else if x >? m then x else m) Hr) as [m' Hm'].
    exists m'. rewrite Hm'. now rewrite <- app_assoc.
Qed.

(** What [parse_graph] leaves in the globals when it returns. *)
Lemma parse_graph_spec (args : list string) (g : graph) :
  parse_graph args = inr g ->
  graph_edges g = map scanned_edge args
  /\ 0 <= max_node_id g
  /\ Forall (fun e => u e <= max_node_id g /\ v e <= max_node_id g)
       (graph_edges g).
Proof.
  unfold parse_graph.
  destruct (Z.of_nat (length args) >? MAX_EDGES); [discriminate|].
  destruct (parse_edges args [] 0) as [[es m]|] eqn:H; [|discriminate].
  intros Hg; inversion Hg; subst; simpl.
  apply parse_edges_spec in H as (-> & _ & Hm & Hall). auto.
Qed.

(** The colouring loop stays inside [colors] only if its last index,
    [max_node_id], is inside. *)
Lemma assign_colors_some (k : nat) : forall i rand cols cols',
  assign_colors k i rand cols = Some cols' -> 0 <= i ->
  (k = 0%nat \/ i + Z.of_nat k <= Z.of_nat (length cols))
  /\ length cols' = length cols.
Proof.
  induction k as [|k IH]; simpl; intros i rand cols cols' H Hi.
  - inversion H; auto.
  - destruct (arr_set cols i (Z.rem (rand i) 3)) as [c1|] eqn:Hs;
      [|discriminate].
    apply arr_set_some in Hs as (Hb & _ & Hl).
    apply IH in H as [Hk Hl']; [|lia]. rewrite Hl in *.
    split; [right|congruence]. lia.
Qed.

Lemma assign_colors_in_bounds (k : nat) : forall i rand cols,
  0 <= i -> i + Z.of_nat k <= Z.of_nat (length cols) ->
  exists cols', assign_colors k i rand cols = Some cols'
                /\ length cols' = length cols.
Proof.
  induction k as [|k IH]; simpl; intros i rand cols Hi Hk.
  - eauto.
  - rewrite arr_set_in_bounds by lia.
    destruct (IH (i + 1) rand (<[Z.to_nat i := Z.rem (rand i) 3]> cols))
      as (c & Hc & Hl); [lia | rewrite length_insert; lia |].
    exists c. rewrite Hc, Hl, length_insert. auto.
Qed.

(** The verification loop keeps [edge_count] between where it started
    and MAX_REMOVED_EDGES. *)
Lemma verify_edges_count (es : list edge_t) : forall cols sol ok sol',
  verify_edges es cols sol = Some (ok, sol') ->
  edge_count sol <= MAX_REMOVED_EDGES ->
  edge_count sol <= edge_count sol' <= MAX_REMOVED_EDGES
  /\ length (edges sol') = length (edges sol).
Proof.
  induction es as [|e rest IH]; simpl; intros cols sol ok sol' H Hc.
  - inversion H; subst. lia.
  - destruct (arr_get cols (u e)) as [cu|]; [|discriminate].
    destruct (arr_get cols (v e)) as [cv|]; [|discriminate].
    destruct (cu =? cv).
    + destruct (edge_count sol <? MAX_REMOVED_EDGES) eqn:Hlt.
      * destruct (arr_set (edges sol) (edge_count sol) e) as [es'|] eqn:Hs;
          [|discriminate].
        apply arr_set_some in Hs as (_ & _ & Hl).
        apply Z.ltb_lt in Hlt.
        apply IH in H as [H1 H2]; simpl in *; [|lia]. split; [lia|congruence].
      * inversion H; subst. lia.
    + now apply IH in H.
Qed.

Lemma verify_edges_in_bounds (es : list edge_t) : forall cols sol,
  Forall (fun e => 0 <= u e < Z.of_nat (length cols)
                   /\ 0 <= v e < Z.of_nat (length cols)) es ->
  0 <= edge_count sol ->
  length (edges sol) = Z.to_nat MAX_REMOVED_EDGES ->
  exists r, verify_edges es cols sol = Some r.
Proof.
  induction es as [|e rest IH]; simpl; intros cols sol Hall Hc Hl.
  - eauto.
  - inversion Hall as [|? ? [Hu Hv] Hrest]; subst.
    destruct (arr_get_in_bounds cols (u e) Hu) as [cu ->].
    destruct (arr_get_in_bounds cols (v e) Hv) as [cv ->].
    destruct (cu =? cv); [|now apply IH].
    destruct (edge_count sol <? MAX_REMOVED_EDGES) eqn:Hlt; [|eauto].
    apply Z.ltb_lt in Hlt.
    rewrite arr_set_in_bounds
      by (rewrite Hl; unfold MAX_REMOVED_EDGES in *; lia).
    apply IH; simpl; auto; [lia|]. now rewrite length_insert.
Qed.

(** A candidate that is kept has between 0 and MAX_REMOVED_EDGES edges. *)
Lemma candidate_kept_bound (g : graph) (rand : Z -> Z) (cols cols' : list Z)
    (junk : list edge_t) (sol : solution_t) :
  candidate g rand cols junk = Some (cols', Some sol) ->
  0 <= edge_count sol <= MAX_REMOVED_EDGES.
Proof.
  unfold candidate.
  destruct (assign_colors _ 0 rand cols) as [c1|]; [|discriminate].
  destruct (verify_edges _ c1 _) as [[[] s1]|] eqn:Hv; try discriminate.
  intros H; inversion H; subst.
  apply verify_edges_count in Hv; simpl in *; unfold MAX_REMOVED_EDGES in *; lia.
Qed.

Lemma candidate_colors_length (g : graph) (rand : Z -> Z) (cols cols' : list Z)
    (junk : list edge_t) (r : option solution_t) :
  candidate g rand cols junk = Some (cols', r) -> length cols' = length cols.
Proof.
  unfold candidate.
  destruct (assign_colors _ 0 rand cols) as [c1|] eqn:Ha; [|discriminate].
  apply assign_colors_some in Ha as [_ Hl]; [|lia].
  destruct (verify_edges _ c1 _) as [[[] s1]|]; try discriminate;
    intros H; inversion H; subst; assumption.
Qed.

(** With every node identifier in [0, MAX_NODES) a round is defined. *)
Lemma candidate_defined (g : graph) (rand : Z -> Z) (cols : list Z)
    (junk : list edge_t) :
  0 <= max_node_id g < MAX_NODES ->
  Forall (fun e => 0 <= u e < MAX_NODES /\ 0 <= v e < MAX_NODES)
    (graph_edges g) ->
  length cols = Z.to_nat MAX_NODES ->
  length junk = Z.to_nat MAX_REMOVED_EDGES ->
  exists r, candidate g rand cols junk = Some r.
Proof.
  intros Hm Hall Hc Hj. unfold candidate.
  destruct (assign_colors_in_bounds (Z.to_nat (max_node_id g + 1)) 0 rand cols)
    as (c1 & -> & Hl); [lia | rewrite Hc; unfold MAX_NODES in *; lia |].
  destruct (verify_edges_in_bounds (graph_edges g) c1
              {| edge_count := 0; edges := junk |}) as [[[] s1] ->];
    simpl; eauto; try lia.
  rewrite Hl, Hc. exact Hall.
Qed.

End Graph.

(** C9: [parse_graph] accepts every list of at most MAX_EDGES arguments
    of the form u-v, whatever the node identifiers; and a round of the
    heuristic keeps its accesses to the MAX_NODES-entry [colors] array in
    bounds only if every node identifier of the graph is below MAX_NODES. *)
Theorem colors_in_bounds_only_below_max_nodes (args : list string) :
  (Z.of_nat (length args) <= Generator.MAX_EDGES ->
   forallb Generator.u_dash_v args = true ->
   exists g, Generator.parse_graph args = inr g
     /\ Generator.graph_edges g = map Generator.scanned_edge args)
  /\ (forall g rand cols junk r,
        Generator.parse_graph args = inr g ->
        length cols = Z.to_nat Generator.MAX_NODES ->
        Generator.candidate g rand cols junk = Some r ->
        Forall (fun e => u e < Generator.MAX_NODES /\ v e < Generator.MAX_NODES)
          (Generator.graph_edges g)).
Proof.
  split.
  - intros Hn Hf. unfold Generator.parse_graph.
    destruct (Z.of_nat (length args) >? Generator.MAX_EDGES) eqn:Hgt; [lia|].
    destruct (parse_edges_accepts args [] 0 Hf) as [m ->].
    eexists; split; reflexivity.
  - intros g rand cols junk r Hp Hc Hr.
    apply parse_graph_spec in Hp as (_ & Hm & Hall).
    unfold Generator.candidate in Hr.
    destruct (Generator.assign_colors _ 0 rand cols) as [c1|] eqn:Ha;
      [|discriminate].
    apply assign_colors_some in Ha as [[Hk|Hk] _]; [lia | | lia].
    rewrite Hc in Hk.
    eapply Forall_impl; [exact Hall|]. simpl.
    intros e [Hu Hv]. unfold Generator.MAX_NODES in *. lia.
Qed.

(** The theorem at the triangle 0-1 1-2 2-0 coloured 0, 1, 2. *)
Lemma colors_in_bounds_only_below_max_nodes_witness :
  (exists g, Generator.parse_graph ["0-1"; "1-2"; "2-0"]%string = inr g
     /\ Generator.graph_edges g
        = map Generator.scanned_edge ["0-1"; "1-2"; "2-0"]%string)
  /\ Forall (fun e => u e < Generator.MAX_NODES /\ v e < Generator.MAX_NODES)
       [{| u := 0; v := 1 |}; {| u := 1; v := 2 |}; {| u := 2; v := 0 |}].
Proof.
  split.
  - apply (proj1 (colors_in_bounds_only_below_max_nodes
                    ["0-1"; "1-2"; "2-0"]%string));
      [unfold Generator.MAX_EDGES; simpl; lia | reflexivity].
  - apply (proj2 (colors_in_bounds_only_below_max_nodes
                    ["0-1"; "1-2"; "2-0"]%string)
             {| Generator.graph_edges :=
                  [{| u := 0; v := 1 |}; {| u := 1; v := 2 |};
                   {| u := 2; v := 0 |}];
                Generator.num_edges := 3; Generator.max_node_id := 2 |}
             (fun i => i) (replicate 100 0)
             (replicate 8 {| u := 0; v := 0 |})
             (<[2%nat := 2]> (<[1%nat := 1]> (replicate 100 0)),
              Some {| edge_count := 0;
                      edges := replicate 8 {| u := 0; v := 0 |} |}));
      reflexivity.
Defined.

(** Node identifiers that do not fit are accepted all the same: with
    the edge 7-1000 the colouring loop runs off the array, and with the
    edge -1-2 the verification loop reads [colors[-1]]. *)
Lemma unbounded_ids_accepted :
  Generator.parse_graph ["0-1"; "7-1000"]%string
    = inr {| Generator.graph_edges :=
               [{| u := 0; v := 1 |}; {| u := 7; v := 1000 |}];
             Generator.num_edges := 2; Generator.max_node_id := 1000 |}
  /\ Generator.parse_graph ["-1-2"]%string
     = inr {| Generator.graph_edges := [{| u := -1; v := 2 |}];
              Generator.num_edges := 1; Generator.max_node_id := 2 |}
  /\ forall rand cols junk,
       length cols = Z.to_nat Generator.MAX_NODES ->
       Generator.candidate
         {| Generator.graph_edges := [{| u := -1; v := 2 |}];
            Generator.num_edges := 1; Generator.max_node_id := 2 |}
         rand cols junk = None.
Proof.
  split; [reflexivity|]. split; [reflexivity|].
  intros rand cols junk Hc. unfold Generator.candidate.
  destruct (Generator.assign_colors _ 0 rand cols) as [c1|]; reflexivity.
Qed.

(* ================================================================== *)
(** * The protocol: invariants of the reachable states *)

Import Ring Protocol.

Lemma reachable_init (lim : Z) : reachable (init lim).
Proof. exists lim. constructor. Qed.

Lemma reachable_step (s s' : system) : reachable s -> step s s' -> reachable s'.
Proof. intros [lim H] Hs. exists lim. econstructor; eauto. Qed.

(** Induction over the reachable states, with the earlier state known
    to be reachable. *)
Lemma reachable_induction (P : system -> Prop) :
  (forall lim, P (init lim)) ->
  (forall s s', reachable s -> P s -> step s s' -> P s') ->
  forall s, reachable s -> P s.
Proof.
  intros Hinit Hstep s [lim H].
  remember (init lim) as s0 eqn:E. induction H; subst.
  - apply Hinit.
  - eapply Hstep; [exists lim; eassumption | auto | eassumption].
Qed.

Lemma in_critical_count_split l1 p l2 :
  in_critical_count (l1 ++ p :: l2)
  = (in_critical_count l1 + in_critical (pc p) + in_critical_count l2)%nat.
Proof.
  unfold in_critical_count. rewrite sum_list_with_app. simpl. lia.
Qed.

Lemma slots_held_split l1 p l2 :
  slots_held (l1 ++ p :: l2)
  = (slots_held l1 + holds_slot (pc p) + slots_held l2)%nat.
Proof. unfold slots_held. rewrite sum_list_with_app. simpl. lia. Qed.

Lemma Forall_split {A} (P : A -> Prop) l1 x l2 :
  Forall P (l1 ++ x :: l2) <-> Forall P l1 /\ P x /\ Forall P l2.
Proof. rewrite Forall_app, Forall_cons. tauto. Qed.

Lemma none_in_critical (l : list producer) :
  in_critical_count l = 0%nat -> Forall (fun p => in_critical (pc p) = 0%nat) l.
Proof.
  induction l as [|p l IH]; simpl; intros H; constructor.
  - unfold in_critical_count in H. simpl in H. lia.
  - apply IH. unfold in_critical_count in *. simpl in H. lia.
Qed.

Lemma loaded_index_critical (c : ppc) (i : Z) :
  loaded_index c = Some i -> in_critical c = 1%nat.
Proof. destruct c; simpl; congruence. Qed.

(** What a call of [cleanup] can do to the shared state. *)
Lemma shutdown_call_effect (e : event) (x : shared) :
  In e shutdown_calls ->
  apply_call e x = with_shm (set_terminate 1 (shm x)) x
  \/ apply_call e x = with_free (S (free_slots x)) x
  \/ apply_call e x = x.
Proof.
  rewrite shutdown_calls_eq. simpl.
  intros H.
  repeat (destruct H as [<-|H]; [simpl; auto|]). contradiction.
Qed.

Lemma todo_in_shutdown (pre todo : list event) (e : event) :
  shutdown_calls = pre ++ e :: todo -> In e shutdown_calls.
Proof. intros ->. apply in_or_app. right. now left. Qed.

(** Steps of other processes do not matter to a local copy of the
    write cursor as long as the cursor itself is untouched. *)
Lemma pidx_same_cursor (x x' : shared) (l : list producer) :
  write_index (shm x') = write_index (shm x) ->
  Forall (fun p => forall i, loaded_index (pc p) = Some i ->
                             i = write_index (shm x)) l ->
  Forall (fun p => forall i, loaded_index (pc p) = Some i ->
                             i = write_index (shm x')) l.
Proof. intros ->. auto. Qed.

Lemma pidx_outside (z : Z) (l : list producer) :
  in_critical_count l = 0%nat ->
  Forall (fun p => forall i, loaded_index (pc p) = Some i -> i = z) l.
Proof.
  intros H. apply none_in_critical in H.
  eapply Forall_impl; [exact H|]. simpl. intros p Hp i Hi.
  apply loaded_index_critical in Hi. congruence.
Qed.

Lemma core_init (lim : Z) : core (init lim).
Proof.
  constructor; simpl.
  - unfold BUFFER_SIZE; lia.
  - unfold BUFFER_SIZE; lia.
  - reflexivity.
  - reflexivity.
  - constructor.
  - discriminate.
  - reflexivity.
  - discriminate.
Qed.

Lemma rem_cursor (i : Z) :
  0 <= i < BUFFER_SIZE ->
  0 <= Z.rem (i + 1) BUFFER_SIZE < BUFFER_SIZE
  /\ Z.rem (i + 1) BUFFER_SIZE = (i + 1) mod BUFFER_SIZE.
Proof.
  intros H. unfold BUFFER_SIZE in *.
  rewrite Z.rem_mod_nonneg by lia.
  split; [apply Z.mod_pos_bound; lia | reflexivity].
Qed.

Lemma core_producer_step (s : system) l1 p l2 sh' p' :
  core s -> producers s = l1 ++ p :: l2 -> pstep (sh s) p sh' p' ->
  core {| sh := sh'; producers := l1 ++ p' :: l2; sup := sup s |}.
Proof.
  intros [Hw Hr Hb Hm Hp Ho Hs Hc] E Hstep.
  rewrite E in Hm, Hp. rewrite in_critical_count_split in Hm.
  apply Forall_split in Hp as (Hp1 & Hpp & Hp2).
  inversion Hstep; subst; clear Hstep;
    match goal with H : pc p = _ |- _ => rewrite H in Hm, Hpp end;
    simpl in Hm, Hpp;
    (constructor; simpl;
     [ try assumption | try assumption | try assumption
     | rewrite in_critical_count_split; simpl; try lia
     | apply Forall_split; simpl;
       (split; [|split]); try assumption; try discriminate
     | try assumption | try assumption | try assumption ]).
  - intros i [= <-]. reflexivity.
  - match goal with H : arr_set _ _ _ = Some _ |- _ =>
      apply arr_set_some in H as (_ & _ & ->) end. assumption.
  - rewrite (Hpp idx eq_refl). now apply rem_cursor.
  - apply pidx_outside. lia.
  - apply pidx_outside. lia.
Qed.

Lemma core_owner_step (s : system) sh' o' :
  core s -> ostep (sh s) (sup s) sh' o' ->
  core {| sh := sh'; producers := producers s; sup := o' |}.
Proof.
  intros [Hw Hr Hb Hm Hp Ho Hs Hc] Hstep.
  inversion Hstep; subst; clear Hstep;
    try match goal with H : opc_of (sup s) = _ |- _ =>
          rewrite H in Ho, Hs; simpl in Ho, Hs end.
  all: try (constructor; simpl; auto; discriminate).
  - constructor; simpl; auto; try discriminate.
    intros i [= <-]. reflexivity.
  - constructor; simpl; auto; try discriminate.
    rewrite (Ho idx eq_refl). now apply rem_cursor.
  - constructor; simpl; auto; try discriminate.
    intros todo [= <-]. now exists [].
  - constructor; simpl; auto; try discriminate.
    intros todo [= <-]. now exists [].
  - destruct (Hc _ H) as [pre Hpre].
    assert (Hnext : forall todo0, O_Cleanup todo = O_Cleanup todo0 ->
              exists pre0, shutdown_calls = pre0 ++ todo0).
    { intros todo0 [= <-]. exists (pre ++ [e]).
      now rewrite <- app_assoc. }
    destruct (shutdown_call_effect e (sh s) (todo_in_shutdown _ _ _ Hpre))
      as [-> | [-> | ->]];
      constructor; simpl; auto; discriminate.
Qed.

Lemma core_reachable (s : system) : reachable s -> core s.
Proof.
  revert s. apply reachable_induction.
  - apply core_init.
  - intros s s' _ IH Hstep. inversion Hstep; subst; clear Hstep.
    + eapply core_producer_step; eauto.
    + now apply core_owner_step.
    + destruct IH as [Hw Hr Hb Hm Hp Ho Hs Hc].
      constructor; simpl; auto.
      * unfold in_critical_count in *. rewrite sum_list_with_app. simpl. lia.
      * apply Forall_app. split; [assumption|].
        constructor; [|constructor]. simpl. discriminate.
Qed.

(** ** Validity of the records *)

Lemma records_read_app (t1 t2 : list event) :
  records_read (t1 ++ t2) = records_read t1 ++ records_read t2.
Proof.
  induction t1 as [|e t1 IH]; simpl; [reflexivity|].
  destruct e; simpl; now rewrite ?IH.
Qed.

Lemma sound_init (lim : Z) : sound (init lim).
Proof.
  constructor.
  - apply Forall_replicate.
    unfold valid_solution, MAX_REMOVED_EDGES. simpl. lia.
  - constructor.
  - discriminate.
  - constructor.
  - simpl. unfold MAX_REMOVED_EDGES. lia.
  - simpl. unfold MAX_REMOVED_EDGES. lia.
Qed.

Lemma sound_producer_step (s : system) l1 p l2 sh' p' :
  sound s -> producers s = l1 ++ p :: l2 -> pstep (sh s) p sh' p' ->
  sound {| sh := sh'; producers := l1 ++ p' :: l2; sup := sup s |}.
Proof.
  intros [Hb Hp Ho Hr Hbest Hloop] E Hstep.
  rewrite E in Hp. apply Forall_split in Hp as (Hp1 & Hpp & Hp2).
  inversion Hstep; subst; clear Hstep;
    match goal with H : pc p = _ |- _ => rewrite H in Hpp end;
    simpl in Hpp;
    (constructor; simpl;
     [ try assumption
     | apply Forall_split; simpl; (split; [|split]);
       try assumption; try discriminate
     | assumption | assumption | assumption | assumption ]).
  - intros sol0 [= <-]. eapply candidate_kept_bound; eauto.
  - match goal with H : arr_set _ _ _ = Some _ |- _ =>
      apply arr_set_some in H as (_ & -> & _) end.
    apply Forall_insert; [assumption|]. now apply (Hpp sol).
Qed.

Lemma apply_call_buffer (e : event) (x : shared) :
  buffer (shm (apply_call e x)) = buffer (shm x).
Proof. destruct e; try reflexivity. destruct s; reflexivity. Qed.

Lemma shutdown_call_not_load (e : event) :
  In e shutdown_calls -> records_read [e] = [].
Proof.
  rewrite shutdown_calls_eq. simpl. intros H.
  repeat (destruct H as [<-|H]; [reflexivity|]). contradiction.
Qed.

Lemma arr_get_Forall {A} (P : A -> Prop) (a : list A) (i : Z) (x : A) :
  Forall P a -> arr_get a i = Some x -> P x.
Proof.
  unfold arr_get. destruct (0 <=? i); [|discriminate].
  intros H Hl. eapply Forall_lookup_1; eauto.
Qed.

Lemma sound_owner_step (s : system) sh' o' :
  core s -> sound s -> ostep (sh s) (sup s) sh' o' ->
  sound {| sh := sh'; producers := producers s; sup := o' |}.
Proof.
  intros Hcore [Hb Hp Ho Hr Hbest Hloop] Hstep.
  inversion Hstep; subst; clear Hstep;
    try match goal with H : opc_of (sup s) = _ |- _ =>
          rewrite H in Ho, Hloop; simpl in Ho, Hloop end;
    (constructor; simpl; rewrite ?records_read_app, ?app_nil_r; simpl;
     rewrite ?app_nil_r;
     [ try assumption | try assumption | try assumption; try discriminate
     | try assumption | try assumption
     | try assumption; try discriminate; auto ]).
  - intros sol0 [= <-].
    match goal with H : arr_get _ _ = Some _ |- _ =>
      exact (arr_get_Forall valid_solution _ _ _ Hb H) end.
  - apply Forall_app. split; [assumption|]. constructor; [|constructor].
    match goal with H : arr_get _ _ = Some _ |- _ =>
      exact (arr_get_Forall valid_solution _ _ _ Hb H) end.
  - specialize (Ho sol eq_refl). unfold valid_solution in Ho. lia.
  - specialize (Ho sol eq_refl). unfold valid_solution in Ho. lia.
  - intros _. specialize (Ho sol eq_refl). unfold valid_solution in Ho. lia.
  - now rewrite apply_call_buffer.
  - destruct (core_cleanup _ Hcore _ H) as [pre Hpre].
    apply todo_in_shutdown in Hpre. apply shutdown_call_not_load in Hpre.
    simpl in Hpre. rewrite Hpre, app_nil_r. assumption.
Qed.

Lemma sound_reachable (s : system) : reachable s -> sound s.
Proof.
  revert s. apply reachable_induction.
  - apply sound_init.
  - intros s s' Hreach IH Hstep. apply core_reachable in Hreach.
    inversion Hstep; subst; clear Hstep.
    + eapply sound_producer_step; eauto.
    + now apply sound_owner_step.
    + destruct IH as [Hb Hp Ho Hr Hbest Hloop].
      constructor; simpl; auto.
      apply Forall_app. split; [assumption|].
      constructor; [|constructor]. simpl. discriminate.
Qed.

(** ** Conservation of the slots *)

Lemma capacity_reachable (s : system) :
  reachable s -> serving (opc_of (sup s)) = true ->
  (free_slots (sh s) + used_slots (sh s) + slots_held (producers s)
   + owner_holds (opc_of (sup s)) = Z.to_nat BUFFER_SIZE)%nat.
Proof.
  revert s. apply (reachable_induction
    (fun s => serving (opc_of (sup s)) = true ->
       (free_slots (sh s) + used_slots (sh s) + slots_held (producers s)
        + owner_holds (opc_of (sup s)) = Z.to_nat BUFFER_SIZE)%nat)).
  - intros lim _. reflexivity.
  - intros s s' Hreach IH Hstep. apply core_reachable in Hreach.
    destruct Hreach as [_ _ _ _ _ _ Hterm _].
    inversion Hstep as [s0 l1 p l2 sh' p' E Hp | s0 sh' o' Ho | s0 g cols Hs Hl];
      subst; clear Hstep; simpl; intros Hserv.
    + specialize (IH Hserv). specialize (Hterm Hserv).
      rewrite E in IH. rewrite slots_held_split in *.
      inversion Hp; subst; clear Hp;
        match goal with H : pc p = _ |- _ => rewrite H in IH end;
        simpl in *; try congruence; lia.
    + inversion Ho; subst; clear Ho; simpl in *;
        try discriminate;
        try match goal with H : opc_of (sup s) = _ |- _ =>
              rewrite H in IH; simpl in IH end;
        try (specialize (IH eq_refl)); simpl in *; lia.
    + specialize (IH Hserv). unfold slots_held in *.
      rewrite sum_list_with_app. simpl. lia.
Qed.

(** ** The trace of a generator *)



(** ** Runs *)

Lemma steps_trans (s1 s2 s3 : system) :
  steps s1 s2 -> steps s2 s3 -> steps s1 s3.
Proof.
  intros H12 H23. induction H23 as [|a b c Hab IH Hbc]; [assumption|].
  apply (steps_next s1 b c); [now apply IH | exact Hbc].
Qed.

Lemma steps_first (s1 s2 s3 : system) :
  step s1 s2 -> steps s2 s3 -> steps s1 s3.
Proof.
  intros H12 H23. eapply steps_trans; [|exact H23].
  econstructor; [constructor | exact H12].
Qed.

Lemma reachable_steps (s s' : system) :
  reachable s -> steps s s' -> reachable s'.
Proof. intros [lim H] H'. exists lim. eapply steps_trans; eauto. Qed.

Ltac producer_step c :=
  eapply steps_first;
  [eapply (step_producer _ [] _ []); [reflexivity | eapply c; reflexivity]|].

Ltac owner_step c :=
  eapply steps_first; [eapply step_owner; eapply c; reflexivity|].

(** One generator publishes a proper colouring of the triangle. *)
Lemma published_reachable : steps (init 5) published.
Proof.
  eapply steps_first;
    [apply (step_attach _ triangle blank_colors); reflexivity|].
  eapply steps_first.
  { eapply (step_producer _ [] _ []); [reflexivity|].
    apply (P_loop_candidate _ _ counting_rand blank_edges proper_colors proper);
      [reflexivity | reflexivity | intros i Hi; exact Hi | reflexivity
      | vm_compute; reflexivity]. }
  producer_step P_wait_free_ok.
  producer_step P_check_clear.
  producer_step P_wait_mutex.
  producer_step P_load_index.
  producer_step P_store_slot.
  producer_step P_store_index.
  producer_step P_post_mutex.
  producer_step P_post_used.
  vm_compute. apply steps_refl.
Qed.

(** The supervisor reads it. *)
Lemma at_check_reachable : steps published at_check.
Proof.
  owner_step O_loop_enter.
  owner_step O_wait_used.
  owner_step O_load_index.
  owner_step O_load_slot.
  owner_step O_store_index.
  owner_step O_post_free.
  vm_compute. apply steps_refl.
Qed.

Lemma published_is_reachable : reachable published.
Proof. exists 5. apply published_reachable. Qed.

Lemma at_check_is_reachable : reachable at_check.
Proof.
  eapply reachable_steps;
    [apply published_is_reachable | apply at_check_reachable].
Qed.

Lemma In_split_list {A} (x : A) (l : list A) :
  In x l -> exists l1 l2, l = l1 ++ x :: l2.
Proof. apply in_split. Qed.



(** C2: while the supervisor serves (from its initialisation of SEM_FREE
    to BUFFER_SIZE and SEM_USED to 0 until it begins [cleanup]), at
    every point where no process is inside a critical section or between
    a wait and its matching post, the values of SEM_FREE and SEM_USED add
    up to BUFFER_SIZE. *)
Theorem capacity_conservation (s : system) :
  reachable s -> serving (opc_of (sup s)) = true -> quiescent s ->
  Z.of_nat (free_slots (sh s) + used_slots (sh s)) = BUFFER_SIZE
  /\ Z.of_nat (free_slots shared0) = BUFFER_SIZE
  /\ used_slots shared0 = 0%nat.
Proof.
  intros Hreach Hserv (Hheld & _ & Howner).
  pose proof (capacity_reachable s Hreach Hserv) as H.
  rewrite Hheld, Howner in H.
  split; [|split; reflexivity].
  unfold BUFFER_SIZE in *. lia.
Qed.

(** The theorem after one completed write: 19 + 1. *)
Lemma capacity_conservation_witness :
  Z.of_nat (free_slots (sh published) + used_slots (sh published))
  = BUFFER_SIZE.
Proof.
  apply (capacity_conservation published);
    [apply published_is_reachable | reflexivity | repeat split].
Defined.

(** ** How a generator ends *)









(** ** Candidates with too many conflicts *)

Lemma conflicts_cons (cols : list Z) (e : edge_t) (es : list edge_t) :
  conflicts cols (e :: es)
  = (if conflict cols e then 1 else 0) + conflicts cols es.
Proof.
  unfold conflicts. simpl. destruct (conflict cols e); simpl; lia.
Qed.

(** The verification loop counts the conflicts and gives up at the
    first one beyond MAX_REMOVED_EDGES. *)
Lemma verify_edges_conflicts (es : list edge_t) : forall cols sol ok sol',
  Generator.verify_edges es cols sol = Some (ok, sol') ->
  edge_count sol <= MAX_REMOVED_EDGES ->
  if ok then edge_count sol' = edge_count sol + conflicts cols es
  else MAX_REMOVED_EDGES < edge_count sol + conflicts cols es.
Proof.
  induction es as [|e rest IH]; intros cols sol ok sol' H Hc.
  - simpl in H. inversion H; subst. unfold conflicts. simpl. lia.
  - rewrite conflicts_cons. unfold conflict. simpl in H.
    destruct (arr_get cols (u e)) as [cu|]; [|discriminate].
    destruct (arr_get cols (v e)) as [cv|]; [|discriminate].
    destruct (cu =? cv).
    + destruct (edge_count sol <? MAX_REMOVED_EDGES) eqn:Hlt.
      * destruct (arr_set (edges sol) (edge_count sol) e) as [es'|];
          [|discriminate].
        apply Z.ltb_lt in Hlt.
        apply IH in H; simpl in *; [|lia]. destruct ok; lia.
      * inversion H; subst. apply Z.ltb_ge in Hlt.
        pose proof (Nat2Z.is_nonneg (length (List.filter (conflict cols) rest))).
        unfold conflicts. lia.
    + apply IH in H; [|assumption]. destruct ok; lia.
Qed.

Lemma candidate_conflicts (g : Generator.graph) (rand : Z -> Z)
    (cols cols' : list Z) (junk : list edge_t) (r : option solution_t) :
  Generator.candidate g rand cols junk = Some (cols', r) ->
  match r with
  | Some sol => edge_count sol = conflicts cols' (Generator.graph_edges g)
  | None => MAX_REMOVED_EDGES < conflicts cols' (Generator.graph_edges g)
  end.
Proof.
  unfold Generator.candidate.
  destruct (Generator.assign_colors _ 0 rand cols) as [c1|]; [|discriminate].
  destruct (Generator.verify_edges _ c1 _) as [[ok s1]|] eqn:Hv;
    [|discriminate].
  apply verify_edges_conflicts in Hv; [|simpl; unfold MAX_REMOVED_EDGES; lia].
  destruct ok; intros H; inversion H; subst; simpl in Hv; lia.
Qed.

(** C6: every record the supervisor has read has between 0 and
    MAX_REMOVED_EDGES edges; and a generator whose colouring has more
    than MAX_REMOVED_EDGES conflicts throws the candidate away: its step
    leaves the shared state as it is, performs no semaphore operation
    and no store, and takes it back to the loop test. *)
Theorem records_read_are_bounded (s : system) :
  reachable s ->
  Forall valid_solution (records_read (otrace (sup s)))
  /\ (forall p rand junk cols' r,
        In p (producers s) -> pc p = P_Loop ->
        terminate (shm (sh s)) = 0 ->
        (forall i, 0 <= i -> 0 <= rand i) ->
        length junk = Z.to_nat MAX_REMOVED_EDGES ->
        Generator.candidate (pgraph p) rand (colors p) junk
          = Some (cols', r) ->
        MAX_REMOVED_EDGES
          < conflicts cols' (Generator.graph_edges (pgraph p)) ->
        r = None
        /\ pstep (sh s) p (sh s) (producer_at p cols' P_Loop discarded)
        /\ forallb (fun e => negb (is_sem_op e || is_slot_store e)) discarded
           = true).
Proof.
  intros Hreach. split; [apply (sound_read _ (sound_reachable _ Hreach))|].
  intros p rand junk cols' r _ Hpc Hterm Hrand Hjunk Hcand Hmany.
  assert (Hr : r = None).
  { pose proof (candidate_conflicts _ _ _ _ _ _ Hcand) as Hk.
    destruct r as [sol|]; [|reflexivity].
    apply candidate_kept_bound in Hcand. lia. }
  subst r. split; [reflexivity|]. split; [|reflexivity].
  now apply (P_loop_discard (sh s) p rand junk cols').
Qed.

Lemma crowded_reachable : reachable crowded.
Proof.
  exists 5. eapply steps_first;
    [apply (step_attach _ nine_loops blank_colors); reflexivity|].
  apply steps_refl.
Qed.

(** The theorem at the record read in [at_check] and at a generator of
    the graph with nine loops. *)
Lemma records_read_are_bounded_witness :
  Forall valid_solution [proper]
  /\ pstep shared0 (attached nine_loops blank_colors) shared0
       (producer_at (attached nine_loops blank_colors) blank_colors P_Loop
          discarded).
Proof.
  split.
  - apply (records_read_are_bounded at_check at_check_is_reachable).
  - apply (proj2 (records_read_are_bounded crowded crowded_reachable)
             (attached nine_loops blank_colors) counting_rand blank_edges
             blank_colors None);
      [left; reflexivity | reflexivity | reflexivity | intros i Hi; exact Hi
      | reflexivity | vm_compute; reflexivity | vm_compute; reflexivity].
Defined.

(** ** Leaving the processing loop *)

Lemma owner_left_step (s s' : system) :
  core s -> step s s' -> in_loop (opc_of (sup s)) = false ->
  in_loop (opc_of (sup s')) = false
  /\ records_read (otrace (sup s')) = records_read (otrace (sup s)).
Proof.
  intros Hcore Hstep Hout.
  inversion Hstep as [| s0 sh' o' Ho |]; subst; clear Hstep; simpl; auto.
  inversion Ho; subst; clear Ho; simpl;
    try match goal with H : opc_of (sup s) = _ |- _ =>
          rewrite H in Hout; simpl in Hout end;
    try discriminate;
    rewrite ?records_read_app, ?app_nil_r; simpl; rewrite ?app_nil_r; auto.
  destruct (core_cleanup _ Hcore _ H) as [pre Hpre].
  apply todo_in_shutdown, shutdown_call_not_load in Hpre.
  simpl in Hpre. rewrite Hpre, app_nil_r. auto.
Qed.

(** Once out of the loop the supervisor stays out and reads nothing. *)
Lemma owner_left_for_good (s1 s2 : system) :
  reachable s1 -> steps s1 s2 -> in_loop (opc_of (sup s1)) = false ->
  in_loop (opc_of (sup s2)) = false
  /\ records_read (otrace (sup s2)) = records_read (otrace (sup s1)).
Proof.
  intros Hreach Hsteps Hout.
  induction Hsteps as [|a b c Hab IH Hbc]; [auto|].
  destruct (IH Hreach Hout) as [Hb Hr].
  assert (Hcore : core b)
    by (apply core_reachable; eapply reachable_steps; eauto).
  destruct (owner_left_step b c Hcore Hbc Hb) as [Hc Hr'].
  split; [assumption | congruence].
Qed.

(** C5: when the record the supervisor is about to compare has
    [edge_count == 0], the comparison succeeds, since [best_edge_count]
    is positive inside the loop: the step that sets [best_edge_count]
    to 0, reports the graph solved and breaks can be taken, whatever
    [solutions_read], [limit] and the value of SEM_USED are.  Every step
    the supervisor can take there leaves the processing loop (that
    step, or a signal starting [cleanup]), and from then on the
    supervisor is never in the loop again and reads no further
    record. *)
Theorem zero_conflict_ends_loop (s : system) (sol : solution_t) :
  reachable s -> opc_of (sup s) = O_Check sol -> edge_count sol = 0 ->
  (exists o',
     ostep (sh s) (sup s) (sh s) o'
     /\ opc_of o' = O_AfterLoop /\ best_edge_count o' = 0
     /\ solutions_read o' = solutions_read (sup s)
     /\ otrace o' = otrace (sup s) ++ [E_new_best 0; E_solved])
  /\ forall sh' o',
       ostep (sh s) (sup s) sh' o' ->
       sh' = sh s
       /\ in_loop (opc_of o') = false
       /\ (opc_of o' = O_AfterLoop /\ best_edge_count o' = 0
           /\ otrace o' = otrace (sup s) ++ [E_new_best 0; E_solved]
           \/ opc_of o' = O_Cleanup shutdown_calls)
       /\ forall s2,
            steps {| sh := sh'; producers := producers s; sup := o' |} s2 ->
            in_loop (opc_of (sup s2)) = false
            /\ records_read (otrace (sup s2))
               = records_read (otrace (sup s)).
Proof.
  intros Hreach Hpc Hzero.
  pose proof (sound_loop _ (sound_reachable _ Hreach)) as Hbest.
  rewrite Hpc in Hbest. specialize (Hbest eq_refl). split.
  { exists (owner_at (sup s) (solutions_read (sup s)) (edge_count sol)
              O_AfterLoop [E_new_best (edge_count sol); E_solved]).
    split; [apply O_check_solved; [assumption | lia | assumption]|].
    simpl. rewrite Hzero. auto. }
  intros sh' o' Hstep.
  assert (Hnext : reachable {| sh := sh'; producers := producers s; sup := o' |})
    by (eapply reachable_step; [exact Hreach | now apply step_owner]).
  assert (Hshape :
    sh' = sh s
    /\ in_loop (opc_of o') = false
    /\ (opc_of o' = O_AfterLoop /\ best_edge_count o' = 0
        /\ otrace o' = otrace (sup s) ++ [E_new_best 0; E_solved]
        \/ opc_of o' = O_Cleanup shutdown_calls)
    /\ records_read (otrace o') = records_read (otrace (sup s))).
  { inversion Hstep; subst; simpl;
      try match goal with H : opc_of (sup s) = _ |- _ =>
            rewrite H in Hpc; try discriminate; inversion Hpc; subst end;
      try lia;
      rewrite ?records_read_app, ?app_nil_r; simpl; rewrite ?app_nil_r.
    - split; [reflexivity|]. split; [reflexivity|].
      split; [|reflexivity]. left. rewrite Hzero. auto.
    - auto. }
  destruct Hshape as (Hsh & Hout & Hhow & Hread).
  split; [assumption|]. split; [assumption|]. split; [assumption|].
  intros s2 Hsteps.
  destruct (owner_left_for_good _ s2 Hnext Hsteps Hout) as [H1 H2].
  simpl in H2. split; [assumption | congruence].
Qed.

(** The theorem at [at_check]: one record read out of a limit of 5, and
    that record has no conflict. *)
Lemma zero_conflict_ends_loop_witness :
  limit (sup at_check) = 5 /\ solutions_read (sup at_check) = 1
  /\ exists o',
       ostep (sh at_check) (sup at_check) (sh at_check) o'
       /\ opc_of o' = O_AfterLoop /\ best_edge_count o' = 0
       /\ solutions_read o' = solutions_read (sup at_check)
       /\ otrace o' = otrace (sup at_check) ++ [E_new_best 0; E_solved].
Proof.
  split; [reflexivity|]. split; [reflexivity|].
  exact (proj1 (zero_conflict_ends_loop at_check proper
                  at_check_is_reachable eq_refl eq_refl)).
Defined.

(** ** The best result *)

Lemma best_after_app (checked : list solution_t) (sol : solution_t) :
  best_after (checked ++ [sol])
  = if edge_count sol <? best_after checked then edge_count sol
    else best_after checked.
Proof. unfold best_after. now rewrite fold_left_app. Qed.

(** [best_after] is the least [edge_count], or the initial value. *)
Lemma best_after_least (checked : list solution_t) :
  Forall (fun r => best_after checked <= edge_count r) checked
  /\ best_after checked <= MAX_REMOVED_EDGES + 1
  /\ (best_after checked = MAX_REMOVED_EDGES + 1
      \/ Exists (fun r => edge_count r = best_after checked) checked).
Proof.
  induction checked as [|sol checked IH] using rev_ind.
  - split; [constructor|]. split; [reflexivity | now left].
  - destruct IH as (Hall & Hle & Hin). rewrite best_after_app.
    destruct (edge_count sol <? best_after checked) eqn:Hlt.
    + apply Z.ltb_lt in Hlt. split; [|split; [lia|]].
      * apply Forall_app. split; [|constructor; [lia|constructor]].
        eapply Forall_impl; [exact Hall|]. simpl. intros; lia.
      * right. apply Exists_app. right. now constructor.
    + apply Z.ltb_ge in Hlt. split; [|split; [lia|]].
      * apply Forall_app. split; [assumption|].
        constructor; [lia|constructor].
      * destruct Hin as [Hin|Hin]; [now left|].
        right. apply Exists_app. now left.
Qed.

Lemma tracks_best_owner_step (s : system) sh' o' :
  core s -> tracks_best (sup s) -> ostep (sh s) (sup s) sh' o' ->
  tracks_best o'.
Proof.
  intros Hcore (checked & Hbest & Hrec) Hstep. unfold tracks_best.
  inversion Hstep; subst; clear Hstep; simpl;
    try match goal with H : opc_of (sup s) = _ |- _ =>
          rewrite H in Hrec; simpl in Hrec end;
    rewrite ?records_read_app, ?app_nil_r; simpl; rewrite ?app_nil_r.
  all: try (destruct Hrec as [Hrec | [? _]]; [|discriminate]).
  all: try (exists checked; split; [assumption|]; auto; fail).
  - exists checked. split; [assumption|]. now rewrite Hrec.
  - exists (checked ++ [sol]). rewrite best_after_app, <- Hbest.
    match goal with H : edge_count sol < _ |- _ =>
      apply Z.ltb_lt in H; rewrite H end. auto.
  - exists (checked ++ [sol]). rewrite best_after_app, <- Hbest.
    match goal with H : edge_count sol < _ |- _ =>
      apply Z.ltb_lt in H; rewrite H end. auto.
  - exists (checked ++ [sol]). rewrite best_after_app, <- Hbest.
    match goal with H : _ <= edge_count sol |- _ =>
      apply Z.ltb_ge in H; rewrite H end. auto.
  - exists checked. split; [assumption|].
    destruct (owner_record (opc_of (sup s))) as [sol|].
    + right. split; [reflexivity|]. now exists sol.
    + destruct Hrec as [Hrec | [_ Hrec]]; [now left|].
      right. split; [reflexivity | assumption].
  - destruct (core_cleanup _ Hcore _ H) as [pre Hpre].
    apply todo_in_shutdown, shutdown_call_not_load in Hpre.
    simpl in Hpre. rewrite Hpre, app_nil_r.
    exists checked. split; [assumption|].
    destruct Hrec as [Hrec | [_ Hrec]]; [now left|].
    right. split; [reflexivity | assumption].
Qed.

Lemma tracks_best_reachable (s : system) : reachable s -> tracks_best (sup s).
Proof.
  revert s. apply reachable_induction.
  - intros lim. exists []. split; [reflexivity|]. now left.
  - intros s s' Hreach IH Hstep. apply core_reachable in Hreach.
    inversion Hstep; subst; clear Hstep; simpl; auto.
    eapply tracks_best_owner_step; eauto.
Qed.

(** C7: [best_edge_count] is the least [edge_count] among the records
    compared so far (MAX_REMOVED_EDGES + 1 before any).  The records
    compared are the records read, except the one held in [sol] that is
    still to be compared; once [cleanup] has begun they are all the
    records read, or all but the last when a signal arrived between the
    read and the comparison.  At the comparison the step that sets
    [best_edge_count] to the smaller of the two values can be taken,
    every step that is not a signal does so, and the value is replaced
    only by a strictly smaller [edge_count]: a record that equals the
    current best leaves it as it is and reports nothing. *)
Theorem best_is_first_minimum (s : system) :
  reachable s ->
  (exists checked,
     match owner_record (opc_of (sup s)) with
     | Some sol => records_read (otrace (sup s)) = checked ++ [sol]
     | None =>
         records_read (otrace (sup s)) = checked
         \/ (serving (opc_of (sup s)) = false
             /\ exists sol, records_read (otrace (sup s)) = checked ++ [sol])
     end
     /\ checked `prefix_of` records_read (otrace (sup s))
     /\ best_edge_count (sup s) = best_after checked
     /\ Forall (fun r => best_edge_count (sup s) <= edge_count r) checked
     /\ (best_edge_count (sup s) = MAX_REMOVED_EDGES + 1
         \/ Exists (fun r => edge_count r = best_edge_count (sup s)) checked))
  /\ (forall sol,
        opc_of (sup s) = O_Check sol ->
        (exists o',
           ostep (sh s) (sup s) (sh s) o'
           /\ serving (opc_of o') = true
           /\ best_edge_count o'
              = (if edge_count sol <? best_edge_count (sup s)
                 then edge_count sol else best_edge_count (sup s)))
        /\ forall sh' o',
             ostep (sh s) (sup s) sh' o' ->
             (serving (opc_of o') = true ->
              best_edge_count o'
              = (if edge_count sol <? best_edge_count (sup s)
                 then edge_count sol else best_edge_count (sup s))
              /\ (edge_count sol < best_edge_count (sup s) ->
                  exists rest,
                    otrace o'
                    = otrace (sup s) ++ E_new_best (edge_count sol) :: rest))
             /\ (best_edge_count o' <> best_edge_count (sup s) ->
                 edge_count sol < best_edge_count (sup s)
                 /\ best_edge_count o' = edge_count sol)
             /\ (edge_count sol = best_edge_count (sup s) ->
                 best_edge_count o' = best_edge_count (sup s)
                 /\ otrace o' = otrace (sup s))).
Proof.
  intros Hreach. split.
  - destruct (tracks_best_reachable _ Hreach) as (checked & Hbest & Hrec).
    exists checked. rewrite Hbest.
    destruct (best_after_least checked) as (Hall & _ & Hin).
    split; [exact Hrec|]. split; [|auto].
    destruct (owner_record (opc_of (sup s))) as [sol|].
    + exists [sol]. assumption.
    + destruct Hrec as [-> | (_ & sol & ->)];
        [reflexivity | now exists [sol]].
  - intros sol Hpc. split.
    + destruct (edge_count sol <? best_edge_count (sup s)) eqn:Hlt.
      * apply Z.ltb_lt in Hlt.
        destruct (Z.eq_dec (edge_count sol) 0) as [Hz|Hz].
        -- eexists. split;
             [apply (O_check_solved _ _ sol); assumption|]. auto.
        -- eexists. split;
             [apply (O_check_better _ _ sol); assumption|]. auto.
      * apply Z.ltb_ge in Hlt.
        eexists. split; [apply (O_check_keep _ _ sol); assumption|]. auto.
    + intros sh' o' Hstep.
      inversion Hstep; subst; simpl;
        try match goal with H : opc_of (sup s) = _ |- _ =>
              rewrite H in Hpc; try discriminate; inversion Hpc; subst end;
        rewrite ?app_nil_r.
      * split; [intros _; split; [|eauto]|split; intros; try lia; auto].
        apply Z.ltb_lt in H0. now rewrite H0.
      * split; [intros _; split; [|eauto]|split; intros; try lia; auto].
        apply Z.ltb_lt in H0. now rewrite H0.
      * split; [intros _; split; [|intros; lia]|split; intros; try lia; auto].
        apply Z.ltb_ge in H0. now rewrite H0.
      * split; [discriminate|]. split; intros; try lia; auto.
Qed.

(** The theorem at [at_check], where the record read has no conflict
    and the best so far is the initial 9: the comparison lowers it
    to 0. *)
Lemma best_is_first_minimum_witness :
  (exists checked,
     records_read (otrace (sup at_check)) = checked ++ [proper]
     /\ best_edge_count (sup at_check) = best_after checked)
  /\ exists o',
       ostep (sh at_check) (sup at_check) (sh at_check) o'
       /\ serving (opc_of o') = true
       /\ best_edge_count o' = 0.
Proof.
  destruct (best_is_first_minimum at_check at_check_is_reachable)
    as [(checked & Hrec & _ & Hbest & _) Hcmp].
  split; [now exists checked|].
  destruct (proj1 (Hcmp proper eq_refl)) as (o' & Hstep & Hserv & Hb).
  exists o'. auto.
Defined.

(** ** Shutdown *)

(** The supervisor runs the calls of [cleanup] to the end and exits. *)
Lemma cleanup_runs (todo : list event) : forall s,
  opc_of (sup s) = O_Cleanup todo ->
  exists s', steps s s'
    /\ sh s' = run_calls todo (sh s)
    /\ producers s' = producers s
    /\ opc_of (sup s') = O_Exited EXIT_SUCCESS.
Proof.
  induction todo as [|e todo IH]; intros s Hpc.
  - exists {| sh := sh s; producers := producers s;
              sup := goto (sup s) (O_Exited EXIT_SUCCESS)
                       [E_exit EXIT_SUCCESS] |}.
    split; [|repeat split].
    eapply steps_first; [|apply steps_refl].
    apply step_owner. now apply O_cleanup_done.
  - destruct (IH {| sh := apply_call e (sh s); producers := producers s;
                    sup := goto (sup s) (O_Cleanup todo) [e] |} eq_refl)
      as (s' & Hsteps & Hsh & Hps & Hex).
    exists s'. split; [|auto].
    eapply steps_first; [|exact Hsteps].
    apply step_owner. now apply O_cleanup_call.
Qed.

Lemma shutdown_effect (x : shared) :
  terminate (shm (run_calls shutdown_calls x)) = 1
  /\ free_slots (run_calls shutdown_calls x)
     = (Z.to_nat BUFFER_SIZE + free_slots x)%nat.
Proof. rewrite shutdown_calls_eq. split; reflexivity. Qed.

(** Each generator waiting on SEM_FREE takes a unit, sees [terminate]
    and leaves, as long as there are units. *)
Lemma wake_all (todo : list producer) : forall done s,
  producers s = done ++ todo -> Forall waiting todo ->
  terminate (shm (sh s)) = 1 ->
  (length todo <= free_slots (sh s))%nat ->
  exists s' todo',
    steps s s' /\ producers s' = done ++ todo'
    /\ Forall2 woken todo todo' /\ sup s' = sup s
    /\ terminate (shm (sh s')) = 1.
Proof.
  induction todo as [|p todo IH]; intros done s Hps Hwait Hterm Hfree.
  - exists s, []. repeat split;
      [apply steps_refl | assumption | constructor | assumption].
  - inversion Hwait as [|? ? [sol Hpc] Hrest]; subst.
    simpl in Hfree. destruct (free_slots (sh s)) as [|n] eqn:Hn; [lia|].
    set (p1 := producer_at p (colors p) (P_CheckTerminate sol)
                 [E_sem_wait SEM_FREE]).
    set (p2 := producer_at p1 (colors p1) P_Detach [E_load_terminate 1]).
    set (p3 := producer_at p2 (colors p2) (P_Exited EXIT_SUCCESS)
                 (detach_calls ++ [E_exit EXIT_SUCCESS])).
    set (s3 := {| sh := with_free n (sh s); producers := done ++ p3 :: todo;
                  sup := sup s |}).
    destruct (IH (done ++ [p3]) s3) as (s' & todo' & Hsteps & Hps' & Hw & Hsup & Hterm').
    { simpl. now rewrite <- app_assoc. }
    { assumption. }
    { assumption. }
    { simpl. lia. }
    exists s', (p3 :: todo'). split; [|split; [|split; [|split]]].
    + eapply steps_first.
      { apply (step_producer s done p todo (with_free n (sh s)) p1 Hps).
        now apply P_wait_free_ok. }
      eapply steps_first.
      { apply (step_producer
                 {| sh := with_free n (sh s); producers := done ++ p1 :: todo;
                    sup := sup s |}
                 done p1 todo (with_free n (sh s)) p2 eq_refl).
        apply (P_check_set _ p1 sol 1); [reflexivity | assumption | lia]. }
      eapply steps_first.
      { apply (step_producer
                 {| sh := with_free n (sh s); producers := done ++ p2 :: todo;
                    sup := sup s |}
                 done p2 todo (with_free n (sh s)) p3 eq_refl).
        now apply P_detach. }
      exact Hsteps.
    + rewrite Hps'. now rewrite <- app_assoc.
    + constructor; [|assumption]. split; [reflexivity|].
      unfold p3, p2, p1. simpl. now rewrite <- !app_assoc.
    + assumption.
    + assumption.
Qed.

(** C4: once start-up has succeeded, one execution of [cleanup] stores
    1 in [terminate], then posts SEM_FREE exactly BUFFER_SIZE times, then
    closes and unlinks the three semaphores, unmaps the region, closes
    the descriptor and unlinks the shared memory name; and with at most
    BUFFER_SIZE generators waiting on SEM_FREE when the supervisor shuts
    down, there is a continuation in which every one of them is woken,
    reads [terminate] as 1, detaches and exits. *)
Theorem shutdown_wakes_generators :
  (forall b opts env limit delay p,
     Supervisor.main_startup b opts env = Supervisor.Serving limit delay p ->
     exists p', Supervisor.cleanup p = Supervisor.Returns p'
       /\ Supervisor.calls p'
          = Supervisor.calls p
            ++ [E_store_terminate 1]
            ++ replicate (Z.to_nat BUFFER_SIZE) (E_sem_post SEM_FREE)
            ++ [E_sem_close SEM_FREE; E_sem_unlink SEM_FREE;
                E_sem_close SEM_USED; E_sem_unlink SEM_USED;
                E_sem_close SEM_MUTEX; E_sem_unlink SEM_MUTEX;
                E_munmap; E_close; E_shm_unlink])
  /\ (forall s,
        serving (opc_of (sup s)) = true ->
        Forall waiting (producers s) ->
        Z.of_nat (length (producers s)) <= BUFFER_SIZE ->
        exists s',
          steps s s'
          /\ Forall2 woken (producers s) (producers s')
          /\ opc_of (sup s') = O_Exited EXIT_SUCCESS
          /\ terminate (shm (sh s')) = 1).
Proof.
  split.
  - intros b opts env limit delay p H.
    destruct (serving_state _ _ _ _ _ _ H) as (p' & H1 & H2).
    exists p'. split; [assumption|]. now rewrite H2, shutdown_calls_eq.
  - intros s Hserv Hwait Hlen.
    set (s1 := {| sh := sh s; producers := producers s;
                  sup := goto (sup s) (O_Cleanup shutdown_calls) [] |}).
    destruct (cleanup_runs shutdown_calls s1 eq_refl)
      as (s2 & Hsteps2 & Hsh2 & Hps2 & Hex2).
    destruct (shutdown_effect (sh s1)) as [Hterm Hfree].
    rewrite <- Hsh2 in Hterm, Hfree.
    destruct (wake_all (producers s) [] s2) as (s3 & ps3 & Hsteps3 & Hps3 & Hw
                                                & Hsup3 & Hterm3).
    { now rewrite Hps2. }
    { assumption. }
    { assumption. }
    { rewrite Hfree. unfold BUFFER_SIZE in *. lia. }
    exists s3. split; [|split; [|split]].
    + apply (steps_first s s1 s3);
        [|exact (steps_trans _ _ _ Hsteps2 Hsteps3)].
      apply (step_owner s (sh s) (goto (sup s) (O_Cleanup shutdown_calls) [])).
      now apply O_signal.
    + now rewrite Hps3.
    + now rewrite Hsup3.
    + assumption.
Qed.

(** The theorem at a start-up in which every call succeeds and at a
    full buffer with one generator blocked. *)
Lemma shutdown_wakes_generators_witness :
  (exists p', Supervisor.cleanup Supervisor.serving_proc = Supervisor.Returns p'
     /\ Supervisor.calls p'
        = Supervisor.calls Supervisor.serving_proc
          ++ [E_store_terminate 1]
          ++ replicate (Z.to_nat BUFFER_SIZE) (E_sem_post SEM_FREE)
          ++ [E_sem_close SEM_FREE; E_sem_unlink SEM_FREE;
              E_sem_close SEM_USED; E_sem_unlink SEM_USED;
              E_sem_close SEM_MUTEX; E_sem_unlink SEM_MUTEX;
              E_munmap; E_close; E_shm_unlink])
  /\ exists s', steps blocked s'
       /\ Forall2 woken (producers blocked) (producers s')
       /\ opc_of (sup s') = O_Exited EXIT_SUCCESS
       /\ terminate (shm (sh s')) = 1.
Proof.
  split.
  - apply (proj1 shutdown_wakes_generators false [] Supervisor.ok_env
             INT_MAX 0 Supervisor.serving_proc).
    vm_compute. reflexivity.
  - apply (proj2 shutdown_wakes_generators blocked).
    + reflexivity.
    + constructor; [|constructor]. now exists proper.
    + unfold BUFFER_SIZE. simpl. lia.
Defined.

Lemma shut_down_reachable : reachable shut_down.
Proof.
  exists 5.
  eapply steps_first; [apply step_owner; apply O_signal; reflexivity|].
  unfold shut_down. rewrite shutdown_calls_eq. simpl.
  do 30 (eapply steps_first;
         [apply step_owner; eapply O_cleanup_call; reflexivity|];
         cbn [apply_call goto owner_at sh sup producers shm with_free
              with_shm free_slots used_slots write_mutex otrace limit
              solutions_read best_edge_count opc_of app]).
  eapply steps_first; [apply step_owner; eapply O_cleanup_done; reflexivity|].
  vm_compute. apply steps_refl.
Qed.

(** C2 as stated fails once the supervisor shuts down: with no
    generator attached, after [cleanup] no process is inside a critical
    section or between a wait and its post, and SEM_FREE holds
    BUFFER_SIZE units more than the claim allows. *)
Lemma capacity_not_conserved_by_shutdown :
  reachable shut_down /\ quiescent shut_down
  /\ Z.of_nat (free_slots (sh shut_down) + used_slots (sh shut_down))
     = 2 * BUFFER_SIZE.
Proof.
  split; [apply shut_down_reachable|]. split; [repeat split | reflexivity].
Qed.

(* ================================================================== *)
(** * Further properties of the option loop *)

(** An option value that is the text of an integer in the range of
    [long] passes the tests of [strtol]'s result. *)
Lemma strtol_integer_text (b : bool) (s : string) (n : Z) :
  Spec.integer_text s = Some n -> LONG_MIN <= n <= LONG_MAX ->
  strtol b s = {| st_value := n; st_endptr := EmptyString; st_errno := 0 |}.
Proof.
  intros H Hr. apply integer_text_scan_decimal in H.
  unfold strtol. rewrite H.
  destruct (LONG_MAX <? n) eqn:H1; [apply Z.ltb_lt in H1; lia|].
  destruct (n <? LONG_MIN) eqn:H2; [apply Z.ltb_lt in H2; lia|].
  reflexivity.
Qed.

(** A valid [-n] value in the range of [long] is accepted, and the limit
    becomes its conversion to [int]: the value itself up to INT_MAX, a
    wrapped value above. *)
Theorem valid_limit_accepted (b : bool) (s : string) (n : Z)
    (rest : list Supervisor.getopt_ret) (limit delay : Z) :
  Spec.integer_text s = Some n -> 0 < n <= LONG_MAX ->
  Supervisor.parse_args b (Supervisor.Opt_n s :: rest) limit delay
    = Supervisor.parse_args b rest (to_int n) delay
  /\ (n <= INT_MAX -> to_int n = n).
Proof.
  intros H Hr. split.
  - simpl. rewrite (strtol_integer_text b s n H) by (unfold LONG_MIN; lia).
    simpl. destruct (n <=? 0) eqn:Hn; [apply Z.leb_le in Hn; lia|].
    reflexivity.
  - intros Hi. unfold to_int, INT_MAX in *.
    rewrite Z.mod_small by lia. lia.
Qed.

Lemma valid_limit_accepted_witness :
  Supervisor.parse_args false [Supervisor.Opt_n "4294967296"] INT_MAX 0
  = inr (0, 0).
Proof.
  apply (valid_limit_accepted false "4294967296" 4294967296 [] INT_MAX 0);
    [reflexivity | unfold LONG_MAX; lia].
Defined.

(** A valid [-w] value in the range of [long] is accepted likewise. *)
Theorem valid_delay_accepted (b : bool) (s : string) (n : Z)
    (rest : list Supervisor.getopt_ret) (limit delay : Z) :
  Spec.integer_text s = Some n -> 0 <= n <= LONG_MAX ->
  Supervisor.parse_args b (Supervisor.Opt_w s :: rest) limit delay
    = Supervisor.parse_args b rest limit (to_int n).
Proof.
  intros H Hr. simpl.
  rewrite (strtol_integer_text b s n H) by (unfold LONG_MIN; lia).
  simpl. destruct (n <? 0) eqn:Hn; [apply Z.ltb_lt in Hn; lia|].
  reflexivity.
Qed.

Lemma valid_delay_accepted_witness :
  Supervisor.parse_args false [Supervisor.Opt_w " +0"] INT_MAX 0
  = inr (INT_MAX, 0).
Proof.
  apply (valid_delay_accepted false " +0" 0 [] INT_MAX 0);
    [reflexivity | unfold LONG_MAX; lia].
Defined.

(** An integer beyond the range of [long] is rejected through ERANGE. *)
Theorem out_of_range_limit_rejected (b : bool) (s : string) (n : Z)
    (rest : list Supervisor.getopt_ret) (limit delay : Z) :
  Spec.integer_text s = Some n -> LONG_MAX < n ->
  Supervisor.parse_args b (Supervisor.Opt_n s :: rest) limit delay
    = inl EXIT_FAILURE.
Proof.
  intros H Hr. apply integer_text_scan_decimal in H. simpl.
  unfold strtol. rewrite H. apply Z.ltb_lt in Hr. rewrite Hr. reflexivity.
Qed.

Lemma out_of_range_limit_rejected_witness :
  Supervisor.parse_args false [Supervisor.Opt_n "9223372036854775808"]
    INT_MAX 0 = inl EXIT_FAILURE.
Proof.
  apply (out_of_range_limit_rejected false "9223372036854775808"
           9223372036854775808 [] INT_MAX 0);
    [reflexivity | unfold LONG_MAX; lia].
Defined.

(** The option loop over two lists of options in a row: the first
    rejected option ends it, and later options override earlier ones. *)
Theorem parse_args_app (b : bool) (opts1 opts2 : list Supervisor.getopt_ret)
    (limit delay : Z) :
  Supervisor.parse_args b (opts1 ++ opts2) limit delay
  = match Supervisor.parse_args b opts1 limit delay with
    | inl status => inl status
    | inr (limit', delay') => Supervisor.parse_args b opts2 limit' delay'
    end.
Proof.
  revert limit delay.
  induction opts1 as [|o opts1 IH]; intros limit delay; [reflexivity|].
  destruct o as [a|a|]; simpl; [| |reflexivity];
    match goal with |- (if ?c then _ else _) = _ => destruct c end;
    auto.
Qed.

Lemma invalid_limit_rejected_witness :
  Supervisor.parse_args false [Supervisor.Opt_n "12abc"] INT_MAX 0
  = inl EXIT_FAILURE.
Proof. apply invalid_limit_rejected. reflexivity. Defined.

Lemma invalid_delay_rejected_witness :
  Supervisor.parse_args false [Supervisor.Opt_w "-1"] INT_MAX 0
  = inl EXIT_FAILURE.
Proof. apply invalid_delay_rejected; [reflexivity | left; discriminate]. Defined.

(* ================================================================== *)
(** * Further properties of the supervisor's start-up *)

Lemma fail_after_not_serving (o : Supervisor.outcome) (limit delay : Z)
    (p : Supervisor.proc) :
  Supervisor.fail_after o = Supervisor.Serving limit delay p -> False.
Proof. destruct o; discriminate. Qed.

(** [main] reaches its loop exactly when the options are accepted and
    every call of the start-up succeeds; [limit] and [delay] are then
    what the option loop computed. *)
Theorem startup_serves_iff (b : bool) (opts : list Supervisor.getopt_ret)
    (env : Supervisor.os_replies) (limit delay : Z) :
  (exists p, Supervisor.main_startup b opts env
             = Supervisor.Serving limit delay p)
  <-> Supervisor.parse_args b opts INT_MAX 0 = inr (limit, delay)
      /\ Supervisor.r_shm_open env <> -1
      /\ Supervisor.r_ftruncate env <> -1
      /\ Supervisor.r_mmap env = true
      /\ forall s, Supervisor.r_sem_open env s = true.
Proof.
  unfold Supervisor.main_startup.
  destruct (Supervisor.parse_args b opts INT_MAX 0) as [st|[l d]].
  { split; [intros [p H]; discriminate | intros [H _]; discriminate]. }
  with_strategy opaque [Supervisor.cleanup] (
    cbn [Supervisor.shm_fd Supervisor.set_shm_fd Supervisor.issue];
    destruct (Supervisor.r_shm_open env =? -1) eqn:Hfd;
    [ split; [intros [p H]; discriminate|];
      intros (_ & H & _); apply Z.eqb_eq in Hfd; contradiction |];
    destruct (Supervisor.r_ftruncate env =? -1) eqn:Hft;
    [ split; [intros [p H]; now apply fail_after_not_serving in H|];
      intros (_ & _ & H & _); apply Z.eqb_eq in Hft; contradiction |];
    apply Z.eqb_neq in Hfd, Hft;
    destruct (Supervisor.r_mmap env) eqn:Hmap;
    cbn [Supervisor.shm_ptr Supervisor.set_shm_ptr];
    [| split; [intros [p H]; now apply fail_after_not_serving in H|];
       intros (_ & _ & _ & H & _); discriminate ];
    unfold Supervisor.sem_open;
    destruct (Supervisor.r_sem_open env SEM_FREE) eqn:Hf,
      (Supervisor.r_sem_open env SEM_USED) eqn:Hu,
      (Supervisor.r_sem_open env SEM_MUTEX) eqn:Hm;
    cbn [Supervisor.sem_free Supervisor.sem_used Supervisor.sem_mutex
         Supervisor.set_sems Supervisor.sem_is_null orb];
    [ split;
      [ intros [p H]; inversion H; subst; repeat split; auto;
        intros []; assumption
      | intros (H & _); inversion H; subst; eexists; reflexivity ]
    | .. ];
    (split;
     [ intros [p H]; now apply fail_after_not_serving in H
     | intros (_ & _ & _ & _ & H);
       try (specialize (H SEM_FREE); congruence);
       try (specialize (H SEM_USED); congruence);
       try (specialize (H SEM_MUTEX); congruence) ])).
Qed.

(** When [ftruncate] fails, [main] closes the descriptor, unlinks the
    shared memory name and returns EXIT_FAILURE. *)
Theorem ftruncate_failure_rolls_back (b : bool)
    (opts : list Supervisor.getopt_ret) (env : Supervisor.os_replies)
    (limit delay : Z) :
  Supervisor.parse_args b opts INT_MAX 0 = inr (limit, delay) ->
  Supervisor.r_shm_open env <> -1 -> Supervisor.r_ftruncate env = -1 ->
  exists p, Supervisor.main_startup b opts env
            = Supervisor.Exited EXIT_FAILURE p
    /\ Supervisor.calls p = [E_shm_open; E_ftruncate; E_close; E_shm_unlink].
Proof.
  intros Hp Hfd Hft. unfold Supervisor.main_startup. rewrite Hp. simpl.
  apply Z.eqb_neq in Hfd. rewrite Hfd, Hft. simpl.
  unfold Supervisor.cleanup, Supervisor.signal_generators,
    Supervisor.wake_generators, Supervisor.release_used,
    Supervisor.release_mutex, Supervisor.unmap_region,
    Supervisor.release_fd. simpl.
  rewrite Hfd. simpl. eexists. split; reflexivity.
Qed.

Lemma ftruncate_failure_rolls_back_witness :
  exists p,
    Supervisor.main_startup false []
      {| Supervisor.r_shm_open := 3; Supervisor.r_ftruncate := -1;
         Supervisor.r_mmap := true; Supervisor.r_sem_open := fun _ => true |}
    = Supervisor.Exited EXIT_FAILURE p
    /\ Supervisor.calls p = [E_shm_open; E_ftruncate; E_close; E_shm_unlink].
Proof.
  apply (ftruncate_failure_rolls_back false [] _ INT_MAX 0);
    [reflexivity | discriminate | reflexivity].
Defined.

(** When [mmap] fails, [shm_ptr] is MAP_FAILED, which is not NULL: the
    first statement of [cleanup] stores through it.  Nothing is closed
    or unlinked before that store. *)
Theorem mmap_failure_stores_through_map_failed (b : bool)
    (opts : list Supervisor.getopt_ret) (env : Supervisor.os_replies)
    (limit delay : Z) :
  Supervisor.parse_args b opts INT_MAX 0 = inr (limit, delay) ->
  Supervisor.r_shm_open env <> -1 -> Supervisor.r_ftruncate env <> -1 ->
  Supervisor.r_mmap env = false ->
  exists p, Supervisor.main_startup b opts env = Supervisor.Faulted p
    /\ Supervisor.shm_ptr p = Supervisor.MAP_FAILED
    /\ Supervisor.calls p = [E_shm_open; E_ftruncate; E_mmap].
Proof.
  intros Hp Hfd Hft Hmap. unfold Supervisor.main_startup. rewrite Hp. simpl.
  apply Z.eqb_neq in Hfd, Hft. rewrite Hfd, Hft, Hmap. simpl.
  eexists. split; [reflexivity|]. split; reflexivity.
Qed.

Lemma mmap_failure_stores_through_map_failed_witness :
  exists p,
    Supervisor.main_startup false []
      {| Supervisor.r_shm_open := 3; Supervisor.r_ftruncate := 0;
         Supervisor.r_mmap := false; Supervisor.r_sem_open := fun _ => true |}
    = Supervisor.Faulted p
    /\ Supervisor.shm_ptr p = Supervisor.MAP_FAILED
    /\ Supervisor.calls p = [E_shm_open; E_ftruncate; E_mmap].
Proof.
  apply (mmap_failure_stores_through_map_failed false [] _ INT_MAX 0);
    [reflexivity | discriminate | discriminate | reflexivity].
Defined.

(** When a [sem_open] fails, [main] returns EXIT_FAILURE after
    unlinking exactly the semaphores that were opened and the shared
    memory name; the region is unmapped, and SEM_FREE, when it was
    opened, is posted BUFFER_SIZE times before it is closed. *)
Theorem sem_open_failure_rolls_back (b : bool)
    (opts : list Supervisor.getopt_ret) (env : Supervisor.os_replies)
    (limit delay : Z) (failed : sem_name) :
  Supervisor.parse_args b opts INT_MAX 0 = inr (limit, delay) ->
  Supervisor.r_shm_open env <> -1 -> Supervisor.r_ftruncate env <> -1 ->
  Supervisor.r_mmap env = true ->
  Supervisor.r_sem_open env failed = false ->
  exists p, Supervisor.main_startup b opts env
            = Supervisor.Exited EXIT_FAILURE p
    /\ List.filter is_unlink (Supervisor.calls p)
       = (if Supervisor.r_sem_open env SEM_FREE
          then [E_sem_unlink SEM_FREE] else [])
         ++ (if Supervisor.r_sem_open env SEM_USED
             then [E_sem_unlink SEM_USED] else [])
         ++ (if Supervisor.r_sem_open env SEM_MUTEX
             then [E_sem_unlink SEM_MUTEX] else [])
         ++ [E_shm_unlink]
    /\ List.filter is_post (Supervisor.calls p)
       = (if Supervisor.r_sem_open env SEM_FREE
          then replicate (Z.to_nat BUFFER_SIZE) (E_sem_post SEM_FREE)
          else [])
    /\ In E_munmap (Supervisor.calls p).
Proof.
  intros Hp Hfd Hft Hmap Hfail.
  unfold Supervisor.main_startup. rewrite Hp.
  cbn [Supervisor.shm_fd Supervisor.set_shm_fd Supervisor.issue].
  apply Z.eqb_neq in Hfd, Hft. rewrite Hfd, Hft, Hmap.
  unfold Supervisor.sem_open.
  revert Hfd. generalize (Supervisor.r_shm_open env) as fd. intros fd Hfd.
  destruct (Supervisor.r_sem_open env SEM_FREE) eqn:Hf,
    (Supervisor.r_sem_open env SEM_USED) eqn:Hu,
    (Supervisor.r_sem_open env SEM_MUTEX) eqn:Hm;
    try (destruct failed; congruence);
    destruct fd as [|q|[q|q|]]; try discriminate Hfd;
    vm_compute; eexists; (split; [reflexivity|]);
    (split; [reflexivity|]); (split; [reflexivity|]); tauto.
Qed.

Lemma sem_open_failure_rolls_back_witness :
  exists p,
    Supervisor.main_startup false []
      {| Supervisor.r_shm_open := 3; Supervisor.r_ftruncate := 0;
         Supervisor.r_mmap := true;
         Supervisor.r_sem_open :=
           fun s => match s with SEM_USED => false | _ => true end |}
    = Supervisor.Exited EXIT_FAILURE p
    /\ List.filter is_unlink (Supervisor.calls p)
       = [E_sem_unlink SEM_FREE; E_sem_unlink SEM_MUTEX; E_shm_unlink].
Proof.
  destruct (sem_open_failure_rolls_back false []
              {| Supervisor.r_shm_open := 3; Supervisor.r_ftruncate := 0;
                 Supervisor.r_mmap := true;
                 Supervisor.r_sem_open :=
                   fun s => match s with SEM_USED => false | _ => true end |}
              INT_MAX 0 SEM_USED eq_refl)
    as (p & H1 & H2 & _); try discriminate; try reflexivity.
  exists p. split; assumption.
Defined.

(* ================================================================== *)
(** * The generator's start-up *)

(** The generator reaches its loop exactly when it has between 1 and
    MAX_EDGES arguments, [sscanf] converts two numbers on each of them,
    and the shared memory and the three semaphores can be opened; the
    graph is then the list of scanned edges. *)
Theorem generator_attaches_iff (args : list string) (env : Attach.os_replies)
    (g : Generator.graph) (calls : list event) :
  Attach.main_startup args env = Attach.Looping g calls
  <-> (args <> []
       /\ Z.of_nat (length args) <= Generator.MAX_EDGES
       /\ forallb Generator.u_dash_v args = true
       /\ Attach.r_shm_open env <> -1
       /\ Attach.r_mmap env = true
       /\ (forall s, Attach.r_sem_open env s = true)
       /\ Generator.parse_graph args = inr g
       /\ Generator.graph_edges g = map Generator.scanned_edge args
       /\ calls = [E_shm_open; E_mmap; E_sem_open SEM_FREE;
                   E_sem_open SEM_USED; E_sem_open SEM_MUTEX]).
Proof.
  unfold Attach.main_startup. split.
  - destruct (Z.of_nat (length args) + 1 <? 2) eqn:Hargc; [discriminate|].
    apply Z.ltb_ge in Hargc.
    destruct (Generator.parse_graph args) as [st|g0] eqn:Hpg; [discriminate|].
    destruct (Attach.r_shm_open env =? -1) eqn:Hfd; [discriminate|].
    destruct (Attach.r_mmap env) eqn:Hmap; [|discriminate]. simpl.
    destruct (Attach.r_sem_open env SEM_FREE) eqn:Hf,
      (Attach.r_sem_open env SEM_USED) eqn:Hu,
      (Attach.r_sem_open env SEM_MUTEX) eqn:Hm; simpl; try discriminate.
    intros H; inversion H; subst.
    pose proof (parse_graph_spec _ _ Hpg) as (He & _ & _).
    pose proof Hpg as Hpg'.
    unfold Generator.parse_graph in Hpg'.
    destruct (Z.of_nat (length args) >? Generator.MAX_EDGES) eqn:Hgt;
      [discriminate|].
    destruct (Generator.parse_edges args [] 0) as [[es m]|] eqn:Hpe;
      [|discriminate].
    apply parse_edges_spec in Hpe as (_ & Hall & _).
    apply Z.eqb_neq in Hfd.
    split; [intros ->; simpl in Hargc; lia|].
    split; [lia|]. split; [assumption|]. split; [assumption|].
    split; [reflexivity|]. split; [intros []; assumption|].
    split; [reflexivity|]. split; [assumption|reflexivity].
  - intros (Hne & Hlen & Hall & Hfd & Hmap & Hsem & Hpg & _ & ->).
    destruct (Z.of_nat (length args) + 1 <? 2) eqn:Hargc.
    { apply Z.ltb_lt in Hargc. destruct args; [congruence|simpl in Hargc; lia]. }
    rewrite Hpg. apply Z.eqb_neq in Hfd. rewrite Hfd, Hmap. simpl.
    rewrite !Hsem. reflexivity.
Qed.

(** Whatever its arguments and whatever the operating system answers,
    the generator's start-up issues no call that resizes, unlinks or
    marks for termination what the supervisor owns, and when it does not
    reach the loop it ends with EXIT_FAILURE. *)
Theorem generator_startup_never_owns (args : list string)
    (env : Attach.os_replies) :
  match Attach.main_startup args env with
  | Attach.Exited status calls =>
      status = EXIT_FAILURE
      /\ forallb (fun e => negb (Attach.is_owner_call e)) calls = true
  | Attach.Looping _ calls =>
      forallb (fun e => negb (Attach.is_owner_call e)) calls = true
  end.
Proof.
  unfold Attach.main_startup.
  destruct (Z.of_nat (length args) + 1 <? 2); [split; reflexivity|].
  destruct (Generator.parse_graph args) as [st|g] eqn:Hpg.
  { split; [|reflexivity]. unfold Generator.parse_graph in Hpg.
    destruct (Z.of_nat (length args) >? Generator.MAX_EDGES);
      [now inversion Hpg|].
    destruct (Generator.parse_edges args [] 0) as [[es m]|];
      [discriminate | now inversion Hpg]. }
  destruct (Attach.r_shm_open env =? -1); [split; reflexivity|].
  destruct (Attach.r_mmap env); simpl; [|split; reflexivity].
  destruct (Attach.r_sem_open env SEM_FREE), (Attach.r_sem_open env SEM_USED),
    (Attach.r_sem_open env SEM_MUTEX); simpl; try split; reflexivity.
Qed.

(* ================================================================== *)
(** * One round of the heuristic *)

(** The colouring loop leaves the entries it does not visit alone. *)
Lemma assign_colors_other (k : nat) : forall i rand cols cols' j,
  Generator.assign_colors k i rand cols = Some cols' -> 0 <= i ->
  j < i \/ i + Z.of_nat k <= j ->
  arr_get cols' j = arr_get cols j.
Proof.
  induction k as [|k IH]; intros i rand cols cols' j H Hi Hj.
  - simpl in H. now inversion H.
  - simpl in H.
    destruct (arr_set cols i (Z.rem (rand i) 3)) as [c1|] eqn:Hs;
      [|discriminate].
    apply arr_set_some in Hs as (Hb & -> & Hl).
    rewrite (IH (i + 1) rand _ cols' j H) by lia.
    unfold arr_get. destruct (0 <=? j) eqn:E0; [|reflexivity].
    apply Z.leb_le in E0. apply list_lookup_insert_ne. lia.
Qed.

(** It gives every node from [i] on, [k] of them, one of the colours
    0, 1, 2. *)
Lemma assign_colors_visited (k : nat) : forall i rand cols cols' j,
  Generator.assign_colors k i rand cols = Some cols' -> 0 <= i ->
  (forall n, 0 <= n -> 0 <= rand n) ->
  i <= j < i + Z.of_nat k ->
  exists c, arr_get cols' j = Some c /\ 0 <= c <= 2.
Proof.
  induction k as [|k IH]; intros i rand cols cols' j H Hi Hrand Hj; [lia|].
  simpl in H.
  destruct (arr_set cols i (Z.rem (rand i) 3)) as [c1|] eqn:Hs;
    [|discriminate].
  apply arr_set_some in Hs as (Hb & -> & Hl).
  destruct (Z.eq_dec j i) as [->|Hne].
  - rewrite (assign_colors_other _ _ _ _ _ i H) by lia.
    unfold arr_get. destruct (0 <=? i) eqn:E0; [|lia].
    rewrite list_lookup_insert_eq by lia.
    eexists. split; [reflexivity|].
    specialize (Hrand i Hi).
    pose proof (Z.rem_bound_pos (rand i) 3 Hrand ltac:(lia)). lia.
  - apply (IH (i + 1) rand _ cols' j H); [lia | assumption | lia].
Qed.

(** A candidate that is kept lists, in its first [edge_count] entries,
    exactly the conflicting edges of the graph, in the order of the
    graph. *)
Lemma verify_edges_records (es : list edge_t) : forall cols sol sol',
  Generator.verify_edges es cols sol = Some (true, sol') ->
  0 <= edge_count sol ->
  take (Z.to_nat (edge_count sol')) (edges sol')
  = take (Z.to_nat (edge_count sol)) (edges sol)
    ++ List.filter (conflict cols) es.
Proof.
  induction es as [|e rest IH]; intros cols sol sol' H Hc.
  - simpl in H. inversion H; subst. simpl. now rewrite app_nil_r.
  - simpl in H. simpl. unfold conflict at 1.
    destruct (arr_get cols (u e)) as [cu|]; [|discriminate].
    destruct (arr_get cols (v e)) as [cv|]; [|discriminate].
    destruct (cu =? cv).
    + destruct (edge_count sol <? MAX_REMOVED_EDGES); [|discriminate].
      destruct (arr_set (edges sol) (edge_count sol) e) as [es'|] eqn:Hs;
        [|discriminate].
      apply arr_set_some in Hs as (Hb & -> & Hl).
      apply IH in H; simpl in *; [|lia]. rewrite H.
      replace (Z.to_nat (edge_count sol + 1))
        with (S (Z.to_nat (edge_count sol))) by lia.
      rewrite (take_S_r _ _ e) by (apply list_lookup_insert_eq; lia).
      rewrite take_insert_ge by lia.
      now rewrite <- app_assoc.
    + now apply IH.
Qed.

(** When the verification loop runs to the end, it has read the colour
    of both ends of every edge inside the array. *)
Lemma verify_edges_visits (es : list edge_t) : forall cols sol sol',
  Generator.verify_edges es cols sol = Some (true, sol') ->
  Forall (fun e => exists cu cv, arr_get cols (u e) = Some cu
                                 /\ arr_get cols (v e) = Some cv) es.
Proof.
  induction es as [|e rest IH]; intros cols sol sol' H; [constructor|].
  simpl in H.
  destruct (arr_get cols (u e)) as [cu|] eqn:Hu; [|discriminate].
  destruct (arr_get cols (v e)) as [cv|] eqn:Hv; [|discriminate].
  constructor; [rewrite Hu, Hv; eauto|].
  destruct (cu =? cv).
  - destruct (edge_count sol <? MAX_REMOVED_EDGES); [|discriminate].
    destruct (arr_set (edges sol) (edge_count sol) e); [|discriminate].
    eapply IH; eauto.
  - eapply IH; eauto.
Qed.

(** The record of a candidate that is kept: [edge_count] is the number
    of conflicts of the colouring, and the first [edge_count] entries
    of [edges] are the conflicting edges in the order of the graph. *)
Theorem candidate_records_conflicts (g : Generator.graph) (rand : Z -> Z)
    (cols cols' : list Z) (junk : list edge_t) (sol : solution_t) :
  Generator.candidate g rand cols junk = Some (cols', Some sol) ->
  edge_count sol = conflicts cols' (Generator.graph_edges g)
  /\ take (Z.to_nat (edge_count sol)) (edges sol)
     = List.filter (conflict cols') (Generator.graph_edges g).
Proof.
  intros H. split; [exact (candidate_conflicts _ _ _ _ _ _ H)|].
  unfold Generator.candidate in H.
  destruct (Generator.assign_colors _ 0 rand cols) as [c1|]; [|discriminate].
  destruct (Generator.verify_edges _ c1 _) as [[[] s1]|] eqn:Hv;
    try discriminate.
  inversion H; subst.
  apply verify_edges_records in Hv; [|simpl; lia]. exact Hv.
Qed.

Lemma candidate_records_conflicts_witness :
  edge_count proper = conflicts proper_colors (Generator.graph_edges triangle)
  /\ take (Z.to_nat (edge_count proper)) (edges proper)
     = List.filter (conflict proper_colors) (Generator.graph_edges triangle).
Proof.
  apply (candidate_records_conflicts triangle counting_rand blank_colors
           proper_colors blank_edges proper).
  vm_compute. reflexivity.
Defined.

(** A record with [edge_count == 0] comes from a proper 3-colouring:
    the two ends of every edge of the parsed graph have different
    colours among 0, 1, 2. *)
Theorem zero_conflicts_is_proper_coloring (args : list string)
    (g : Generator.graph) (rand : Z -> Z) (cols cols' : list Z)
    (junk : list edge_t) (sol : solution_t) :
  Generator.parse_graph args = inr g ->
  (forall n, 0 <= n -> 0 <= rand n) ->
  Generator.candidate g rand cols junk = Some (cols', Some sol) ->
  edge_count sol = 0 ->
  Forall (fun e => exists cu cv,
            arr_get cols' (u e) = Some cu /\ arr_get cols' (v e) = Some cv
            /\ 0 <= cu <= 2 /\ 0 <= cv <= 2 /\ cu <> cv)
    (Generator.graph_edges g).
Proof.
  intros Hpg Hrand Hcand Hzero.
  pose proof (candidate_conflicts _ _ _ _ _ _ Hcand) as Hk. simpl in Hk.
  apply parse_graph_spec in Hpg as (_ & Hm & Hids).
  unfold Generator.candidate in Hcand.
  destruct (Generator.assign_colors _ 0 rand cols) as [c1|] eqn:Ha;
    [|discriminate].
  destruct (Generator.verify_edges _ c1 _) as [[[] s1]|] eqn:Hv;
    try discriminate.
  inversion Hcand; subst. apply verify_edges_visits in Hv.
  assert (Hnone : List.filter (conflict cols') (Generator.graph_edges g) = []).
  { unfold conflicts in Hk.
    destruct (List.filter (conflict cols') (Generator.graph_edges g));
      [reflexivity | simpl in Hk; lia]. }
  rewrite Forall_forall in *. intros e He.
  destruct (Hv e He) as (cu & cv & Hu & Hv').
  destruct (Hids e He) as [Hu_le Hv_le].
  pose proof (arr_get_some _ _ _ Hu) as Hub.
  pose proof (arr_get_some _ _ _ Hv') as Hvb.
  destruct (assign_colors_visited _ _ _ _ _ (u e) Ha ltac:(lia) Hrand
              ltac:(lia)) as (cu' & Hcu & Hcur).
  destruct (assign_colors_visited _ _ _ _ _ (v e) Ha ltac:(lia) Hrand
              ltac:(lia)) as (cv' & Hcv & Hcvr).
  exists cu, cv. rewrite Hu in Hcu. rewrite Hv' in Hcv.
  assert (Ecu : cu = cu') by congruence.
  assert (Ecv : cv = cv') by congruence.
  split; [assumption|]. split; [assumption|].
  split; [lia|]. split; [lia|].
  intros Heq. rewrite Heq in Hu.
  assert (Hin : In e (List.filter (conflict cols') (Generator.graph_edges g))).
  { apply filter_In. split; [now apply list_elem_of_In|].
    unfold conflict. rewrite Hu, Hv'. apply Z.eqb_refl. }
  rewrite Hnone in Hin. contradiction.
Qed.

Lemma zero_conflicts_is_proper_coloring_witness :
  Forall (fun e => exists cu cv,
            arr_get proper_colors (u e) = Some cu
            /\ arr_get proper_colors (v e) = Some cv
            /\ 0 <= cu <= 2 /\ 0 <= cv <= 2 /\ cu <> cv)
    (Generator.graph_edges triangle).
Proof.
  apply (zero_conflicts_is_proper_coloring ["0-1"; "1-2"; "2-0"]%string
           triangle counting_rand blank_colors proper_colors blank_edges
           proper);
    [reflexivity | intros n Hn; exact Hn | vm_compute; reflexivity
    | reflexivity].
Defined.

(* ================================================================== *)
(** * Further properties of the protocol *)

(** In every reachable state both cursors are inside the buffer, the
    buffer has BUFFER_SIZE slots, and the slot a generator is about to
    store into and the slot the supervisor is about to load exist: no
    access to [buffer] is out of bounds. *)
Theorem buffer_accesses_in_bounds (s : system) :
  reachable s ->
  0 <= write_index (shm (sh s)) < BUFFER_SIZE
  /\ 0 <= read_index (shm (sh s)) < BUFFER_SIZE
  /\ length (buffer (shm (sh s))) = Z.to_nat BUFFER_SIZE
  /\ (forall p sol idx,
        In p (producers s) -> pc p = P_StoreSlot sol idx ->
        exists buf', arr_set (buffer (shm (sh s))) idx sol = Some buf')
  /\ (forall idx,
        opc_of (sup s) = O_LoadSlot idx ->
        exists sol, arr_get (buffer (shm (sh s))) idx = Some sol).
Proof.
  intros Hreach. destruct (core_reachable _ Hreach)
    as [Hw Hr Hb Hm Hp Ho Hs Hc].
  repeat split; try lia; try assumption.
  - intros p sol idx Hin Hpc. rewrite Forall_forall in Hp.
    rewrite <- list_elem_of_In in Hin.
    rewrite (Hp p Hin idx) by (now rewrite Hpc).
    eexists. apply arr_set_in_bounds. rewrite Hb. unfold BUFFER_SIZE in *. lia.
  - intros idx Hpc. rewrite (Ho idx) by (now rewrite Hpc).
    apply arr_get_in_bounds. rewrite Hb. unfold BUFFER_SIZE in *. lia.
Qed.

Lemma buffer_accesses_in_bounds_witness :
  0 <= write_index (shm (sh published)) < BUFFER_SIZE
  /\ 0 <= read_index (shm (sh published)) < BUFFER_SIZE.
Proof.
  destruct (buffer_accesses_in_bounds published published_is_reachable)
    as (H1 & H2 & _).
  split; assumption.
Defined.

(** Mutual exclusion: the value of SEM_MUTEX plus the number of
    generators between [sem_wait(sem_mutex)] and the end of
    [sem_post(sem_mutex)] is always 1, so while one generator is there
    no other is. *)
Theorem write_mutex_excludes (s : system) :
  reachable s ->
  (write_mutex (sh s) + in_critical_count (producers s) = 1)%nat
  /\ forall l1 p l2,
       producers s = l1 ++ p :: l2 -> in_critical (pc p) = 1%nat ->
       write_mutex (sh s) = 0%nat
       /\ Forall (fun q => in_critical (pc q) = 0%nat) (l1 ++ l2).
Proof.
  intros Hreach. pose proof (core_mutex _ (core_reachable _ Hreach)) as Hm.
  split; [assumption|].
  intros l1 p l2 E Hp. rewrite E, in_critical_count_split in Hm.
  split; [lia|]. apply Forall_app.
  split; apply none_in_critical; lia.
Qed.

Lemma write_mutex_excludes_witness :
  (write_mutex (sh published) + in_critical_count (producers published)
   = 1)%nat.
Proof.
  apply (write_mutex_excludes published published_is_reachable).
Defined.

(** ** [terminate] *)

Lemma terminate_step (s s' : system) :
  core s -> step s s' ->
  terminate (shm (sh s')) = terminate (shm (sh s))
  \/ terminate (shm (sh s')) = 1.
Proof.
  intros Hcore Hstep.
  inversion Hstep as [s0 l1 p l2 sh' p' E Hp | s0 sh' o' Ho |];
    subst; clear Hstep; simpl; auto.
  - inversion Hp; subst; simpl; auto.
  - inversion Ho; subst; simpl; auto.
    destruct (core_cleanup _ Hcore _ H) as [pre Hpre].
    destruct (shutdown_call_effect e (sh s) (todo_in_shutdown _ _ _ Hpre))
      as [-> | [-> | ->]]; simpl; auto.
Qed.

(** [terminate] is 0 or 1, it is 0 as long as the supervisor serves,
    and once it is 1 it is 1 in every later state: only [cleanup]
    stores to it, and it stores 1. *)
Theorem terminate_is_monotonic (s s' : system) :
  reachable s -> steps s s' ->
  (terminate (shm (sh s)) = 0 \/ terminate (shm (sh s)) = 1)
  /\ (serving (opc_of (sup s)) = true -> terminate (shm (sh s)) = 0)
  /\ (terminate (shm (sh s)) = 1 -> terminate (shm (sh s')) = 1).
Proof.
  intros Hreach Hsteps. split; [|split].
  - clear Hsteps s'. revert s Hreach.
    apply (reachable_induction
             (fun s => terminate (shm (sh s)) = 0
                       \/ terminate (shm (sh s)) = 1)).
    + intros lim. now left.
    + intros s s' Hreach IH Hstep.
      destruct (terminate_step s s' (core_reachable _ Hreach) Hstep)
        as [-> | ->]; auto.
  - apply (core_serving _ (core_reachable _ Hreach)).
  - intros Hone. induction Hsteps as [|a b c Hab IH Hbc]; [assumption|].
    specialize (IH Hreach Hone).
    assert (Hb : reachable b) by (eapply reachable_steps; eauto).
    destruct (terminate_step b c (core_reachable _ Hb) Hbc) as [-> | ->];
      auto.
Qed.

Lemma terminate_is_monotonic_witness :
  terminate (shm (sh published)) = 0.
Proof.
  apply (terminate_is_monotonic published at_check published_is_reachable
           at_check_reachable).
  reflexivity.
Defined.

Import Accounting.

(** ** The limit *)

Lemma counted_owner_step (s : system) sh' o' :
  core s -> counted (sup s) -> ostep (sh s) (sup s) sh' o' -> counted o'.
Proof.
  intros Hcore [Hread Hnn Hbody Hlim Htot] Hstep.
  inversion Hstep; subst; clear Hstep;
    try match goal with H : opc_of (sup s) = _ |- _ =>
          rewrite H in Hread, Hbody; simpl in Hread, Hbody;
          try specialize (Hread eq_refl); try specialize (Hbody eq_refl)
        end;
    (constructor; simpl;
     rewrite ?records_read_app, ?length_app, ?app_nil_r; simpl;
     [ intros Hs; try discriminate Hs; try lia
     | try lia
     | intros Hb; try discriminate Hb; try lia
     | try lia
     | try lia ]).
  destruct (core_cleanup _ Hcore _ H) as [pre Hpre].
  apply todo_in_shutdown, shutdown_call_not_load in Hpre.
  simpl in Hpre. rewrite Hpre. simpl. lia.
Qed.

Lemma counted_reachable (s : system) : reachable s -> counted (sup s).
Proof.
  revert s. apply (reachable_induction (fun s => counted (sup s))).
  - intros lim. constructor; simpl; try lia; discriminate.
  - intros s s' Hreach IH Hstep. apply core_reachable in Hreach.
    inversion Hstep; subst; clear Hstep; simpl; auto.
    eapply counted_owner_step; eauto.
Qed.

(** The supervisor never reads more records than its limit, and while
    it serves [solutions_read] is the number of records read, the one
    whose slot has not been handed back yet apart. *)
Theorem limit_is_respected (s : system) :
  reachable s ->
  Z.of_nat (length (records_read (otrace (sup s))))
    <= Z.max 0 (limit (sup s))
  /\ 0 <= solutions_read (sup s) <= Z.max 0 (limit (sup s))
  /\ (serving (opc_of (sup s)) = true ->
      Z.of_nat (length (records_read (otrace (sup s))))
      = solutions_read (sup s) + loaded_uncounted (opc_of (sup s))).
Proof.
  intros Hreach. destruct (counted_reachable _ Hreach) as [H1 H2 H3 H4 H5].
  repeat split; auto.
Qed.

Lemma limit_is_respected_witness :
  Z.of_nat (length (records_read (otrace (sup at_check))))
    <= Z.max 0 (limit (sup at_check)).
Proof.
  apply (limit_is_respected at_check at_check_is_reachable).
Defined.

(** ** The end of the supervisor *)

Lemma cleanup_progress_reachable (s : system) :
  reachable s -> cleanup_progress s.
Proof.
  revert s. apply reachable_induction.
  - intros lim. exact I.
  - intros s s' Hreach IH Hstep. unfold cleanup_progress in *.
    inversion Hstep as [s0 l1 p l2 sh' p' E Hp | s0 sh' o' Ho |];
      subst; clear Hstep; simpl; [| |assumption].
    + assert (Ht : terminate (shm sh') = terminate (shm (sh s)))
        by (inversion Hp; subst; reflexivity).
      rewrite Ht. assumption.
    + inversion Ho; subst; clear Ho; simpl; try exact I;
        try match goal with H : opc_of (sup s) = _ |- _ =>
              rewrite H in IH end.
      * exists (otrace (sup s)), []. rewrite !app_nil_r.
        repeat split; congruence.
      * exists (otrace (sup s)), []. rewrite !app_nil_r.
        repeat split; congruence.
      * destruct IH as (t & pre & Ht & Hpre & Hterm).
        exists t, (pre ++ [e]). rewrite Ht, <- !app_assoc.
        split; [reflexivity|]. split; [assumption|]. intros _.
        destruct pre as [|e0 pre].
        -- simpl in Hpre. rewrite shutdown_calls_eq in Hpre.
           inversion Hpre; subst. reflexivity.
        -- specialize (Hterm ltac:(discriminate)).
           destruct (shutdown_call_effect e (sh s)
                       (todo_in_shutdown _ _ _ Hpre)) as [-> | [-> | ->]];
             simpl; auto.
      * destruct IH as (t & pre & Ht & Hpre & Hterm).
        rewrite app_nil_r in Hpre. subst pre.
        split; [reflexivity|]. split.
        -- apply Hterm. rewrite shutdown_calls_eq. discriminate.
        -- exists t. rewrite Ht, <- app_assoc. reflexivity.
Qed.

(** In every run from the state a successful start-up leaves, whenever
    the supervisor has exited, after the loop or on a signal delivered
    while it was serving, its status is EXIT_SUCCESS, [terminate] is 1
    and the last thing it did was the complete sequence of calls of
    [cleanup].  (A signal during start-up or during [cleanup] itself is
    outside these runs.) *)
Theorem supervisor_exits_after_cleanup (s : system) (status : Z) :
  reachable s -> opc_of (sup s) = O_Exited status ->
  status = EXIT_SUCCESS
  /\ terminate (shm (sh s)) = 1
  /\ exists t, otrace (sup s) = t ++ shutdown_calls ++ [E_exit EXIT_SUCCESS].
Proof.
  intros Hreach Hpc. pose proof (cleanup_progress_reachable _ Hreach) as H.
  unfold cleanup_progress in H. rewrite Hpc in H. exact H.
Qed.

(** The theorem at [shut_down], where a signal arrived before any
    record was read. *)
Lemma supervisor_exits_after_cleanup_witness :
  reachable shut_down
  /\ opc_of (sup shut_down) = O_Exited EXIT_SUCCESS
  /\ terminate (shm (sh shut_down)) = 1
  /\ exists t,
       otrace (sup shut_down) = t ++ shutdown_calls ++ [E_exit EXIT_SUCCESS].
Proof.
  split; [exact shut_down_reachable|]. split; [reflexivity|].
  exact (proj2 (supervisor_exits_after_cleanup shut_down EXIT_SUCCESS
                  shut_down_reachable eq_refl)).
Defined.

(** A signal handled before the region is mapped, when no handle but
    the descriptor can be set: [handle_signal] closes the descriptor and
    unlinks the shared memory name if [shm_open] has succeeded, and
    exits with EXIT_SUCCESS.  These are all its calls: nothing is stored
    to [terminate] and no semaphore is posted. *)
Theorem signal_before_mapping_stores_nothing (p : Supervisor.proc) :
  Supervisor.descriptor_only p ->
  exists p',
    Supervisor.handle_signal p = Supervisor.Returns p'
    /\ Supervisor.globals p' = Supervisor.globals p
    /\ Supervisor.calls p'
       = Supervisor.calls p
         ++ (if Supervisor.shm_fd p =? -1 then [] else [E_close; E_shm_unlink])
         ++ [E_exit EXIT_SUCCESS].
Proof.
  intros (H1 & H2 & H3 & H4). unfold Supervisor.handle_signal.
  rewrite cleanup_descriptor_only by assumption.
  unfold Supervisor.release_fd.
  destruct (Supervisor.shm_fd p =? -1) eqn:Hfd; simpl;
    eexists; (split; [reflexivity|]); simpl; split; try reflexivity.
  - now rewrite <- !app_assoc.
Qed.

(** The theorem just after [shm_open] has returned descriptor 3. *)
Lemma signal_before_mapping_stores_nothing_witness :
  exists p',
    Supervisor.handle_signal
      (Supervisor.set_shm_fd 3 (Supervisor.issue E_shm_open Supervisor.proc0))
    = Supervisor.Returns p'
    /\ Supervisor.calls p'
       = [E_shm_open; E_close; E_shm_unlink; E_exit EXIT_SUCCESS].
Proof.
  destruct (signal_before_mapping_stores_nothing
              (Supervisor.set_shm_fd 3
                 (Supervisor.issue E_shm_open Supervisor.proc0)))
    as (p' & H & _ & Hc); [repeat split|].
  exists p'. split; [exact H | exact Hc].
Defined.


Import Fifo.

(* ================================================================== *)
(** * The order in which records are read *)

Ltac mod_lia := zify; Z.div_mod_to_equations; lia.

Lemma run_reachable (lim : Z) (w : list solution_t) (s : system) :
  run (init lim) w s -> reachable s.
Proof.
  intros H. remember (init lim) as s0 eqn:E.
  induction H; subst; [apply reachable_init|].
  eapply reachable_step; eauto.
Qed.

Lemma after_store_split l1 p l2 :
  sum_list_with (fun q => after_store (pc q)) (l1 ++ p :: l2)
  = (sum_list_with (fun q => after_store (pc q)) l1 + after_store (pc p)
     + sum_list_with (fun q => after_store (pc q)) l2)%nat.
Proof. rewrite sum_list_with_app. simpl. lia. Qed.

Lemma after_store_le_held (l : list producer) :
  (sum_list_with (fun q => after_store (pc q)) l <= slots_held l)%nat.
Proof.
  unfold slots_held. induction l as [|p l IH]; simpl; [lia|].
  destruct (pc p); simpl; lia.
Qed.

Lemma ring_init (lim : Z) : ring [] (init lim).
Proof.
  constructor; simpl; try reflexivity; try discriminate.
  intros _ k Hk. lia.
Qed.

Lemma published_by_same (s s' : system) :
  write_index (shm (sh s')) = write_index (shm (sh s)) ->
  published_by s s' = [].
Proof. intros H. unfold published_by. now rewrite H, Z.eqb_refl. Qed.

Lemma ring_producer_step (w : list solution_t) (s : system) l1 p l2 sh' p' :
  reachable s -> ring w s -> producers s = l1 ++ p :: l2 ->
  pstep (sh s) p sh' p' ->
  ring (w ++ published_by s
               {| sh := sh'; producers := l1 ++ p' :: l2; sup := sup s |})
       {| sh := sh'; producers := l1 ++ p' :: l2; sup := sup s |}.
Proof.
  intros Hreach [Hw Hord Hld Hrd Hlev Hsl] E Hstep.
  pose proof (core_reachable _ Hreach) as Hcore.
  pose proof (capacity_reachable _ Hreach) as Hcap.
  rewrite E in Hlev, Hcap.
  rewrite after_store_split in Hlev. rewrite slots_held_split in Hcap.
  inversion Hstep; subst; clear Hstep;
    match goal with H : pc p = _ |- _ =>
      rewrite H in Hlev, Hcap; simpl in Hlev, Hcap end;
    try (rewrite published_by_same by reflexivity; rewrite app_nil_r;
         constructor; simpl; rewrite ?after_store_split; simpl;
         try assumption;
         try (intros Hs; specialize (Hlev Hs); lia)).
  - (* buffer[idx] = sol: the slot is not one that is still to be read *)
    intros Hs k Hk. specialize (Hlev Hs). specialize (Hcap Hs).
    match goal with H : arr_set _ _ _ = Some _ |- _ =>
      apply arr_set_some in H as (Hb & -> & _) end.
    pose proof (core_pidx _ Hcore) as Hidx. rewrite E in Hidx.
    apply Forall_split in Hidx as (_ & Hidx & _).
    rewrite H in Hidx. specialize (Hidx idx eq_refl). rewrite Hw in Hidx.
    pose proof (after_store_le_held l1). pose proof (after_store_le_held l2).
    assert (before_read (opc_of (sup s)) <= owner_holds (opc_of (sup s)))%nat
      by (destruct (opc_of (sup s)); simpl; lia).
    rewrite list_lookup_insert_ne; [now apply Hsl|].
    subst idx. unfold BUFFER_SIZE in *. mod_lia.
  - (* write_index = (idx + 1) % BUFFER_SIZE: the slot is published *)
    pose proof (core_pidx _ Hcore) as Hidx. rewrite E in Hidx.
    apply Forall_split in Hidx as (_ & Hidx & _).
    rewrite H in Hidx. specialize (Hidx idx eq_refl).
    pose proof (core_write _ Hcore) as Hwi.
    pose proof (core_buffer _ Hcore) as Hlen.
    destruct (arr_get_in_bounds (buffer (shm (sh s))) idx) as [b Hb];
      [rewrite Hlen; unfold BUFFER_SIZE in *; lia|].
    assert (Hpub : published_by s
              {| sh := with_shm (set_write_index (Z.rem (idx + 1) BUFFER_SIZE)
                                   (shm (sh s))) (sh s);
                 producers := l1 ++ producer_at p (colors p) P_PostMutex
                   [E_store_write_index (Z.rem (idx + 1) BUFFER_SIZE)] :: l2;
                 sup := sup s |} = [b]).
    { unfold published_by. simpl. rewrite <- Hidx, Hb.
      destruct (Z.rem (idx + 1) BUFFER_SIZE =? idx) eqn:Eq; [|reflexivity].
      apply Z.eqb_eq in Eq. destruct (rem_cursor idx) as [_ Hrem]; [lia|].
      rewrite Hrem in Eq. unfold BUFFER_SIZE in *. mod_lia. }
    rewrite Hpub.
    assert (Hrr : (length (records_read (otrace (sup s))) <= length w)%nat).
    { rewrite Hord at 1. rewrite length_take. lia. }
    constructor; simpl; rewrite ?after_store_split; simpl;
      rewrite ?length_app; simpl; try assumption.
    + destruct (rem_cursor idx) as [_ ->]; [lia|].
      rewrite Hidx, Hw. unfold BUFFER_SIZE. mod_lia.
    + rewrite take_app_le by lia. assumption.
    + intros Hs. specialize (Hlev Hs). lia.
    + intros Hs k Hk.
      destruct (decide (k = length w)) as [->|Hne].
      * rewrite lookup_app_r by lia. rewrite Nat.sub_diag. simpl.
        unfold arr_get in Hb. rewrite Hidx, Hw in Hb.
        destruct (0 <=? Z.of_nat (length w) mod BUFFER_SIZE); [|discriminate].
        exact Hb.
      * rewrite lookup_app_l by lia. apply Hsl; [assumption|lia].
Qed.

Lemma apply_call_write_index (e : event) (x : shared) :
  write_index (shm (apply_call e x)) = write_index (shm x).
Proof. destruct e; try reflexivity. destruct s; reflexivity. Qed.

Lemma ostep_write_index (x x' : shared) (o o' : owner) :
  ostep x o x' o' -> write_index (shm x') = write_index (shm x).
Proof.
  inversion 1; subst; simpl; try reflexivity. apply apply_call_write_index.
Qed.

Lemma ring_owner_step (w : list solution_t) (s : system) sh' o' :
  reachable s -> ring w s -> ostep (sh s) (sup s) sh' o' ->
  ring w {| sh := sh'; producers := producers s; sup := o' |}.
Proof.
  intros Hreach [Hw Hord Hld Hrd Hlev Hsl] Hstep.
  pose proof (core_reachable _ Hreach) as Hcore.
  pose proof (core_oidx _ Hcore) as Hoidx.
  unfold consumed in *.
  inversion Hstep; subst; clear Hstep;
    try match goal with H : opc_of (sup s) = _ |- _ =>
          rewrite H in Hrd, Hlev, Hsl, Hoidx;
          simpl in Hrd, Hlev, Hsl, Hoidx;
          try specialize (Hrd eq_refl); try specialize (Hlev eq_refl);
          try specialize (Hsl eq_refl)
        end;
    (constructor; unfold consumed; simpl;
     rewrite ?records_read_app, ?app_nil_r; simpl; rewrite ?app_nil_r;
     rewrite ?Nat.sub_0_r in *;
     [ try assumption
     | try assumption
     | try (intros ? ? Hx; discriminate Hx)
     | intros Hs; try discriminate Hs; try assumption
     | intros Hs; try discriminate Hs; try lia
     | intros Hs; try discriminate Hs; try assumption ]).
  - (* sol = buffer[idx]: the oldest record not yet consumed *)
    rewrite length_app. simpl.
    replace (length (records_read (otrace (sup s))) + 1)%nat
      with (S (length (records_read (otrace (sup s))))) by lia.
    rewrite (take_S_r _ _ sol); [now rewrite <- Hord|].
    rewrite <- (Hsl (length (records_read (otrace (sup s))))) by lia.
    match goal with H : arr_get _ _ = Some _ |- _ =>
      unfold arr_get in H; rewrite (Hoidx idx eq_refl), Hrd in H;
      destruct (0 <=? _) in H; [exact H | discriminate H] end.
  - intros i sol0 _ Hnil. now apply app_eq_nil in Hnil as [_ Hnil].
  - rewrite length_app. simpl. rewrite Hrd. f_equal. lia.
  - rewrite length_app. simpl. lia.
  - rewrite length_app. simpl. intros k Hk. apply Hsl. lia.
  - assert (Hne : records_read (otrace (sup s)) <> []) by (eapply Hld; eauto).
    assert (length (records_read (otrace (sup s))) <> 0)%nat
      by (destruct (records_read (otrace (sup s))); simpl; congruence).
    pose proof (core_read _ Hcore) as Hri.
    rewrite (Hoidx idx eq_refl) in *.
    destruct (rem_cursor (read_index (shm (sh s))) Hri) as [_ ->].
    rewrite Hrd. unfold BUFFER_SIZE. mod_lia.
  - assert (Hne : records_read (otrace (sup s)) <> []) by (eapply Hld; eauto).
    assert (length (records_read (otrace (sup s))) <> 0)%nat
      by (destruct (records_read (otrace (sup s))); simpl; congruence).
    lia.
  - intros k Hk. apply Hsl. lia.
  - now rewrite apply_call_write_index.
  - destruct (core_cleanup _ Hcore _ H) as [pre Hpre].
    apply todo_in_shutdown, shutdown_call_not_load in Hpre.
    simpl in Hpre. rewrite Hpre, app_nil_r. assumption.
Qed.

Lemma ring_run (lim : Z) (w : list solution_t) (s : system) :
  run (init lim) w s -> ring w s.
Proof.
  intros H. remember (init lim) as s0 eqn:E.
  induction H as [|s1 w s2 s3 Hrun IH Hstep]; subst; [apply ring_init|].
  specialize (IH eq_refl).
  pose proof (run_reachable _ _ _ Hrun) as Hreach.
  inversion Hstep as [s0 l1 p l2 sh' p' E Hp | s0 sh' o' Ho | s0 g cols Hs Hl];
    subst.
  - apply (ring_producer_step w s2 l1 p l2 sh' p'); assumption.
  - rewrite published_by_same by (simpl; eapply ostep_write_index; eauto).
    rewrite app_nil_r. now apply ring_owner_step.
  - rewrite published_by_same by reflexivity. rewrite app_nil_r.
    destruct IH as [Hw Hord Hld Hrd Hlev Hsl].
    constructor; simpl; try assumption.
    intros Hserv. rewrite sum_list_with_app. simpl.
    specialize (Hlev Hserv). lia.
Qed.

(** Every run has its list of published records. *)
Lemma steps_run (s s' : system) : steps s s' -> exists w, run s w s'.
Proof.
  induction 1 as [|a b c Hab [w IH] Hbc]; [exists []; constructor|].
  eexists. econstructor; eauto.
Qed.

(** First in, first out: along every run the records the supervisor
    has read are, in the same order, the first of the records that the
    generators have published (a record is published when the write
    cursor moves past its slot); nothing is read twice, skipped or
    overwritten before it is read. *)
Theorem records_are_read_in_publication_order (lim : Z)
    (w : list solution_t) (s : system) :
  run (init lim) w s ->
  records_read (otrace (sup s)) `prefix_of` w
  /\ (serving (opc_of (sup s)) = true ->
      forall k, (consumed (sup s) <= k < length w)%nat ->
        buffer (shm (sh s)) !! Z.to_nat (Z.of_nat k mod BUFFER_SIZE) = w !! k)
  /\ (serving (opc_of (sup s)) = true ->
      (length w <= consumed (sup s) + Z.to_nat BUFFER_SIZE)%nat).
Proof.
  intros Hrun. pose proof (ring_run _ _ _ Hrun) as [Hw Hord Hld Hrd Hlev Hsl].
  split; [|split].
  - rewrite Hord. apply prefix_take.
  - exact Hsl.
  - intros Hs. specialize (Hlev Hs).
    pose proof (capacity_reachable _ (run_reachable _ _ _ Hrun) Hs) as Hcap.
    pose proof (after_store_le_held (producers s)).
    assert (before_read (opc_of (sup s)) <= owner_holds (opc_of (sup s)))%nat
      by (destruct (opc_of (sup s)); simpl; lia).
    lia.
Qed.

Lemma records_are_read_in_publication_order_witness :
  exists w, records_read (otrace (sup at_check)) `prefix_of` w.
Proof.
  destruct (steps_run (init 5) at_check
              (steps_trans _ _ _ published_reachable at_check_reachable))
    as [w Hw].
  exists w. apply (records_are_read_in_publication_order 5 w at_check Hw).
Defined.

(** ** Who writes what *)

(** A generator never stores to [terminate] or [read_index], never adds
    a unit to SEM_FREE and never takes one from SEM_USED; the
    supervisor never stores to [write_index] or to a slot, never touches
    SEM_MUTEX and never takes a unit from SEM_FREE. *)
Theorem roles_keep_to_their_fields (s : system) :
  reachable s ->
  (forall p sh' p',
     pstep (sh s) p sh' p' ->
     terminate (shm sh') = terminate (shm (sh s))
     /\ read_index (shm sh') = read_index (shm (sh s))
     /\ (free_slots sh' <= free_slots (sh s))%nat
     /\ (used_slots (sh s) <= used_slots sh')%nat)
  /\ (forall sh' o',
        ostep (sh s) (sup s) sh' o' ->
        write_index (shm sh') = write_index (shm (sh s))
        /\ buffer (shm sh') = buffer (shm (sh s))
        /\ write_mutex sh' = write_mutex (sh s)
        /\ (free_slots (sh s) <= free_slots sh')%nat).
Proof.
  intros Hreach. pose proof (core_reachable _ Hreach) as Hcore. split.
  - intros p sh' p' Hp. inversion Hp; subst; simpl; repeat split; lia.
  - intros sh' o' Ho. inversion Ho; subst; simpl; repeat split; try lia.
    + apply apply_call_write_index.
    + apply apply_call_buffer.
    + destruct (core_cleanup _ Hcore _ H) as [pre Hpre].
      destruct (shutdown_call_effect e (sh s) (todo_in_shutdown _ _ _ Hpre))
        as [-> | [-> | ->]]; reflexivity.
    + destruct (core_cleanup _ Hcore _ H) as [pre Hpre].
      destruct (shutdown_call_effect e (sh s) (todo_in_shutdown _ _ _ Hpre))
        as [-> | [-> | ->]]; simpl; lia.
Qed.

Lemma roles_keep_to_their_fields_witness :
  reachable at_check
  /\ ((forall p sh' p',
         pstep (sh at_check) p sh' p' ->
         terminate (shm sh') = terminate (shm (sh at_check))
         /\ read_index (shm sh') = read_index (shm (sh at_check))
         /\ (free_slots sh' <= free_slots (sh at_check))%nat
         /\ (used_slots (sh at_check) <= used_slots sh')%nat)
      /\ (forall sh' o',
            ostep (sh at_check) (sup at_check) sh' o' ->
            write_index (shm sh') = write_index (shm (sh at_check))
            /\ buffer (shm sh') = buffer (shm (sh at_check))
            /\ write_mutex sh' = write_mutex (sh at_check)
            /\ (free_slots (sh at_check) <= free_slots sh')%nat)).
Proof.
  split.
  - exact at_check_is_reachable.
  - exact (roles_keep_to_their_fields at_check at_check_is_reachable).
Defined.

(* ================================================================== *)
(** * Further properties of the generator's graph *)

(** [max_node_id] ends as its initial value or as an end of an edge. *)
Lemma max_node_id_attained (args : list string) : forall acc m es m',
  Generator.parse_edges args acc m = Some (es, m') ->
  m <= m'
  /\ (m' = m
      \/ exists e, In e (map Generator.scanned_edge args)
                   /\ (u e = m' \/ v e = m')).
Proof.
  induction args as [|a rest IH]; simpl; intros acc m es m' H.
  - inversion H; subst. split; [lia | now left].
  - unfold Generator.scanned_edge at 1.
    destruct (sscanf_d_dash_d a 0 0) as [[n x] y].
    destruct (n =? 2); simpl in H; [|discriminate].
    apply IH in H as [Hle Hin].
    set (m1 := if x >? m then x else m) in *.
    assert (H1 : m <= m1 /\ (m1 = m \/ m1 = x))
      by (unfold m1; destruct (x >? m) eqn:Hx; lia).
    set (m2 := if y >? m1 then y else m1) in *.
    assert (H2 : m1 <= m2 /\ (m2 = m1 \/ m2 = y))
      by (unfold m2; destruct (y >? m1) eqn:Hy; lia).
    split; [lia|].
    destruct Hin as [-> | (e & He & Hm)].
    + destruct H2 as [_ [-> | ->]].
      * destruct H1 as [_ [-> | ->]]; [now left|].
        right. eexists. split; [left; reflexivity | simpl; auto].
      * right. eexists. split; [left; reflexivity | simpl; auto].
    + right. exists e. split; [now right | assumption].
Qed.

(** With every node identifier in [0, MAX_NODES) and the arrays at
    their declared sizes, a round of the heuristic makes no access out
    of bounds, whatever [rand] returns. *)
Theorem small_ids_keep_round_in_bounds (args : list string)
    (g : Generator.graph) (rand : Z -> Z) (cols : list Z)
    (junk : list edge_t) :
  Generator.parse_graph args = inr g ->
  Forall (fun e => 0 <= u e < Generator.MAX_NODES
                   /\ 0 <= v e < Generator.MAX_NODES)
    (Generator.graph_edges g) ->
  length cols = Z.to_nat Generator.MAX_NODES ->
  length junk = Z.to_nat MAX_REMOVED_EDGES ->
  exists cols' r,
    Generator.candidate g rand cols junk = Some (cols', r)
    /\ length cols' = length cols.
Proof.
  intros Hpg Hall Hc Hj.
  assert (Hm : 0 <= Generator.max_node_id g < Generator.MAX_NODES).
  { unfold Generator.parse_graph in Hpg.
    destruct (Z.of_nat (length args) >? Generator.MAX_EDGES); [discriminate|].
    destruct (Generator.parse_edges args [] 0) as [[es m]|] eqn:Hpe;
      [|discriminate].
    inversion Hpg; subst; simpl in *.
    pose proof (parse_edges_spec _ _ _ _ _ Hpe) as (Hes & _).
    simpl in Hes. subst es.
    apply max_node_id_attained in Hpe as [Hlo Hhi]. split; [lia|].
    destruct Hhi as [-> | (e & He & Hmax)]; [unfold Generator.MAX_NODES; lia|].
    rewrite Forall_forall in Hall.
    apply list_elem_of_In in He. specialize (Hall e He).
    destruct Hmax as [<- | <-]; lia. }
  destruct (candidate_defined g rand cols junk Hm Hall Hc Hj) as [[cols' r] H].
  exists cols', r. split; [assumption|].
  eapply candidate_colors_length; eauto.
Qed.

Lemma small_ids_keep_round_in_bounds_witness :
  exists cols' r,
    Generator.candidate triangle counting_rand blank_colors blank_edges
      = Some (cols', r)
    /\ length cols' = length blank_colors.
Proof.
  apply (small_ids_keep_round_in_bounds ["0-1"; "1-2"; "2-0"]%string);
    [reflexivity | | reflexivity | reflexivity].
  repeat constructor; simpl; unfold Generator.MAX_NODES; lia.
Defined.
